(** * Shamir secret reconstruction: base decoding and exact Lagrange
      interpolation at zero

    A shallow embedding of [src/index.js]: [decodeValue] (lines 17-26) and
    [lagrangeInterpolationAtZero] with its rational helpers [gcd],
    [simplify], [addFrac] and [mulFrac] (lines 35-95).

    JavaScript [BigInt] values are unbounded integers and are modelled by
    [Z]; [a / b] on BigInt is truncating division ([Z.quot]) and [a % b] is
    the remainder with the sign of the dividend ([Z.rem]); both throw a
    [RangeError] when the divisor is [0n].  [BigInt(v)] on a Number throws a
    [RangeError] when [v] is [NaN]. *)

From Stdlib Require Import ZArith List ListDec String Ascii Bool Lia.
From Stdlib Require Import Permutation.
From Stdlib Require Import QArith Qreduction Qfield.
From Stdlib Require Import Znumtheory.
From Equations Require Import Equations.
Import ListNotations.

Local Open Scope Z_scope.

(** ** Completions: normal results and thrown exceptions *)

(** The two places of the source that can throw, both with the built-in
    [RangeError] class. *)
Inductive exn : Type :=
| RangeError_NotAnInteger     (* BigInt(NaN) *)
| RangeError_DivisionByZero.  (* x / 0n, x % 0n *)

(** The [name] property of the thrown error object. *)
Definition exn_name (e : exn) : string :=
  match e with
  | RangeError_NotAnInteger => "RangeError"
  | RangeError_DivisionByZero => "RangeError"
  end.

Inductive completion (A : Type) : Type :=
| Normal (a : A)
| Throw (e : exn).
Arguments Normal {A} a.
Arguments Throw {A} e.

Definition bind {A B : Type} (c : completion A) (k : A -> completion B)
  : completion B :=
  match c with
  | Normal a => k a
  | Throw e => Throw e
  end.

Declare Scope js_scope.
Delimit Scope js_scope with js.
Notation "x <- c ;; k" := (bind c (fun x => k))
  (at level 61, c at next level, right associativity) : js_scope.
Notation "' p <- c ;; k" := (bind c (fun x => let 'p := x in k))
  (at level 61, p pattern, c at next level, right associativity) : js_scope.
Local Open Scope js_scope.

(** [o] is an exception whose error class is called [name]. *)
Definition raises {A : Type} (name : string) (o : completion A) : Prop :=
  exists e, o = Throw e /\ exn_name e = name.

(** ** BigInt primitives *)

(** [a / b] on BigInt. *)
Definition bigint_div (a b : Z) : completion Z :=
  if b =? 0 then Throw RangeError_DivisionByZero else Normal (Z.quot a b).

(** [BigInt(v)] for a Number that is an integer ([Some]) or [NaN] ([None]). *)
Definition BigInt_of_number (v : option Z) : completion Z :=
  match v with
  | Some z => Normal z
  | None => Throw RangeError_NotAnInteger
  end.

(** ** Rational helpers (lines 40-59) *)

Module Frac.

(** The state of the [while] loop of [gcd] is the pair [(a, b)]; one
    iteration performs [[a, b] = [b, a % b]]. *)
Definition gcd_body (s : Z * Z) : Z * Z := (snd s, Z.rem (fst s) (snd s)).

(** [while (b !== 0n) { [a, b] = [b, a % b]; } return a], entered with
    non-negative [a] and [b]. *)
Equations? gcd_loop (a b : Z) : Z by wf (Z.abs_nat b) lt :=
  gcd_loop a b with Z.eq_dec b 0 := {
    | left _ => a;
    | right _ => gcd_loop b (Z.rem a b) }.
Proof.
  assert (Z.abs (Z.rem a b) < Z.abs b) by (apply Z.rem_bound_abs; assumption).
  lia.
Qed.

Definition gcd (a b : Z) : Z :=
  let a := if a <? 0 then - a else a in
  let b := if b <? 0 then - b else b in
  gcd_loop a b.

(** A fraction is the two-element array [[numerator, denominator]]. *)
Definition frac : Type := (Z * Z)%type.

(** Lines 47-51.  The array literal evaluates [num / g] before [den / g]. *)
Definition simplify (num den : Z) : completion frac :=
  let '(num, den) := if den <? 0 then (- num, - den) else (num, den) in
  let g := gcd (if num <? 0 then - num else num) den in
  n <- bigint_div num g ;;
  d <- bigint_div den g ;;
  Normal (n, d).

(** Lines 53-55. *)
Definition addFrac (f1 f2 : frac) : completion frac :=
  let '(n1, d1) := f1 in
  let '(n2, d2) := f2 in
  simplify (n1 * d2 + n2 * d1) (d1 * d2).

(** Lines 57-59. *)
Definition mulFrac (f1 f2 : frac) : completion frac :=
  let '(n1, d1) := f1 in
  let '(n2, d2) := f2 in
  simplify (n1 * n2) (d1 * d2).

End Frac.

(** ** The evaluator (lines 35-95) *)

Record point : Type := mkPoint { x : Z; y : Z }.

(** [points[i]]; every index the loops use is below [points.length], so
    the default is never read. *)
Definition at_index (points : list point) (i : nat) : point :=
  nth i points (mkPoint 0 0).

(** A counted loop [for (let i = 0; i < n; i++) body] whose body may
    throw: the exception leaves the loop. *)
Fixpoint for_each {S : Type} (body : nat -> S -> completion S)
    (indices : list nat) (s : S) : completion S :=
  match indices with
  | [] => Normal s
  | i :: rest => s' <- body i s ;; for_each body rest s'
  end.

(** Lines 73-77: one iteration of the inner loop on the state
    [(num, den)]. *)
Definition basis_body (points : list point) (i : nat) (xi : Z)
    (s : Z * Z) (j : nat) : Z * Z :=
  if Nat.eqb i j then s
  else
    let xj := x (at_index points j) in
    (fst s * (0 - xj), snd s * (xi - xj)).

(** Lines 69-78: [num] and [den] after the inner loop. *)
Definition basis (points : list point) (i : nat) : Z * Z :=
  let n := List.length points in
  let xi := x (at_index points i) in
  fold_left (basis_body points i xi) (seq 0 n) (1, 1).

(** Lines 64-87: one iteration of the outer loop on the state [result]. *)
Definition term_body (points : list point) (i : nat) (result : Frac.frac)
  : completion Frac.frac :=
  let yi := y (at_index points i) in
  let '(num, den) := basis points i in
  li <- Frac.simplify num den ;;
  term <- Frac.mulFrac (yi, 1) li ;;
  Frac.addFrac result term.

(** Lines 61-88: [result] after the outer loop. *)
Definition accumulate (points : list point) : completion Frac.frac :=
  let n := List.length points in
  for_each (term_body points) (seq 0 n) (0, 1).

(** What [console.warn] printed. *)
Inductive console_event : Type :=
| Warn_not_exact_integer.

(** Lines 90-94 on the final [result]. *)
Definition finish (result : Frac.frac)
  : list console_event * completion Z :=
  let console :=
    if negb (snd result =? 1) && negb (snd result =? -1)
    then [Warn_not_exact_integer] else [] in
  (console, bigint_div (fst result) (snd result)).

(** The whole function: the console output and the completion. *)
Definition lagrangeInterpolationAtZero (points : list point)
  : list console_event * completion Z :=
  match accumulate points with
  | Normal result => finish result
  | Throw e => ([], Throw e)
  end.

(** ** The decoder (lines 17-26) *)

(** Characters are the code points U+0000..U+00FF.  [toLowerCase] maps
    [A-Z] and the Latin-1 capitals (U+00C0..U+00DE without U+00D7) to the
    letter 32 places further. *)
Definition toLowerCase_char (c : ascii) : ascii :=
  let n := N_of_ascii c in
  if ((65 <=? n) && (n <=? 90))%N then ascii_of_N (n + 32)
  else if ((192 <=? n) && (n <=? 222) && negb (n =? 215))%N
       then ascii_of_N (n + 32)
  else c.

Definition toLowerCase (s : string) : list ascii :=
  map toLowerCase_char (list_ascii_of_string s).

(** The value [parseInt] gives a digit or letter, whatever the radix. *)
Definition digit_of_char (c : ascii) : option Z :=
  let n := Z.of_N (N_of_ascii c) in
  if (48 <=? n) && (n <=? 57) then Some (n - 48)
  else if (97 <=? n) && (n <=? 122) then Some (n - 87)
  else if (65 <=? n) && (n <=? 90) then Some (n - 55)
  else None.

Definition ToInt32 (z : Z) : Z :=
  let m := z mod 2 ^ 32 in
  if 2 ^ 31 <=? m then m - 2 ^ 32 else m.

(** [parseInt(base)] with one argument, for [base] an integral Number of
    magnitude below 10^21: its decimal string parses back to itself. *)
Definition parseInt_number (base : Z) : Z := base.

(** [parseInt(char, radix)] on a one-character string; [None] is [NaN].
    A radix whose [ToInt32] is 0 means 10, one outside 2..36 gives [NaN];
    white space, a sign or any other character that is no digit below the
    radix leaves no digits to parse, which gives [NaN] too. *)
Definition parseInt_char (c : ascii) (radix : Z) : option Z :=
  let r := ToInt32 radix in
  let r := if r =? 0 then Some 10
           else if (r <? 2) || (36 <? r) then None
           else Some r in
  match r, digit_of_char c with
  | Some r, Some d => if d <? r then Some d else None
  | _, _ => None
  end.

(** Lines 22-23: the loop body on the state [result]. *)
Definition decode_body (base : Z) (result : Z) (char : ascii)
  : completion Z :=
  digit <- BigInt_of_number (parseInt_char char (parseInt_number base)) ;;
  Normal (result * base + digit).

Fixpoint decode_loop (base : Z) (chars : list ascii) (result : Z)
  : completion Z :=
  match chars with
  | [] => Normal result
  | char :: rest =>
      result' <- decode_body base result char ;;
      decode_loop base rest result'
  end.

(** The function on an integral [base] of magnitude below 10^21, for which
    [BigInt(base)] on line 19 is [base] itself, and on a string of code
    points below U+0100.  [decodeValue_general] below is the function on
    every Number and every string, and agrees with this one here. *)
Definition decodeValue (base : Z) (valueStr : string) : completion Z :=
  decode_loop base (toLowerCase valueStr) 0.

(** ** Reference definitions, written from the specification *)

(** The case-insensitive alphanumeric ordinal: the place of the character
    in [0..9a..z], or in [0..9A..Z]. *)
Fixpoint place_in (c : ascii) (alphabet : list ascii) : option Z :=
  match alphabet with
  | [] => None
  | a :: rest =>
      if Ascii.eqb c a then Some 0
      else option_map Z.succ (place_in c rest)
  end.

Definition spec_digit_value (c : ascii) : option Z :=
  match place_in c
          (list_ascii_of_string "0123456789abcdefghijklmnopqrstuvwxyz") with
  | Some d => Some d
  | None =>
      place_in c
        (list_ascii_of_string "0123456789ABCDEFGHIJKLMNOPQRSTUVWXYZ")
  end.

(** The sum over the digits, left to right, of the digit value times the
    base to the number of digits that remain after it. *)
Fixpoint positional_value (base : Z) (digits : list Z) : Z :=
  match digits with
  | [] => 0
  | d :: rest =>
      d * base ^ Z.of_nat (List.length rest) + positional_value base rest
  end.

(** [ds] are the digit values of the characters of [s], all below
    [base]. *)
Definition digits_of (base : Z) (s : string) (ds : list Z) : Prop :=
  Forall2 (fun c d => spec_digit_value c = Some d /\ d < base)
          (list_ascii_of_string s) ds.

(** [c] does not fit [base]: it has no digit value, or one that is not
    below [base]. *)
Definition invalid_digit (base : Z) (c : ascii) : Prop :=
  forall d, spec_digit_value c = Some d -> base <= d.

(** A normalized fraction. *)
Definition normalized (f : Frac.frac) : Prop :=
  0 < snd f /\ Z.gcd (Z.abs (fst f)) (snd f) = 1 /\ (fst f = 0 -> snd f = 1).

(** ** Auxiliary notions of the proofs *)

(** What [simplify] returns when nothing throws: both parts divided by
    the greatest common divisor, the sign carried by the numerator. *)
Definition reduce (num den : Z) : Frac.frac :=
  (Z.quot (Z.sgn den * num) (Z.gcd num den),
   Z.quot (Z.abs den) (Z.gcd num den)).

(** Two of the shares have the same [x]. *)
Definition has_duplicate_x (points : list point) : Prop :=
  exists i j,
    (i < List.length points)%nat /\ (j < List.length points)%nat /\
    i <> j /\ x (at_index points i) = x (at_index points j).

(** A completion that is a division by zero, or a fraction whose
    denominator is zero. *)
Definition degenerate (c : completion Frac.frac) : Prop :=
  match c with
  | Normal f => snd f = 0
  | Throw e => e = RangeError_DivisionByZero
  end.

(** ** The interpolant as a rational number *)

(** The value of a fraction. *)
Definition toQ (f : Frac.frac) : Q := (inject_Z (fst f) / inject_Z (snd f))%Q.

Definition product (l : list Z) : Z := fold_right Z.mul 1 l.

(** The shares whose [x] is not that of [p]. *)
Definition others (p : point) (points : list point) : list point :=
  filter (fun q => negb (x q =? x p)) points.

Definition basis_num (p : point) (points : list point) : Z :=
  product (map (fun q => 0 - x q) (others p points)).

Definition basis_den (p : point) (points : list point) : Z :=
  product (map (fun q => x p - x q) (others p points)).

(** The term of the share [p] in Lagrange's formula at zero. *)
Definition termQ (points : list point) (p : point) : Q :=
  (inject_Z (y p)
   * (inject_Z (basis_num p points) / inject_Z (basis_den p points)))%Q.

Definition sumQ (l : list Q) : Q := fold_right Qplus 0%Q l.

Definition lagrangeQ (points : list point) : Q :=
  sumQ (map (termQ points) points).

(** One step of the inner loop, told by the value of [x] instead of the
    index. *)
Definition basis_by_value (xi : Z) (s : Z * Z) (q : point) : Z * Z :=
  if x q =? xi then s
  else (fst s * (0 - x q), snd s * (xi - x q)).

(** ** Polynomials *)

(** The value at [t] of the polynomial with the integer coefficients
    [coeffs], the constant term first. *)
Fixpoint eval_poly (coeffs : list Z) (t : Z) : Z :=
  match coeffs with
  | [] => 0
  | c :: rest => c + t * eval_poly rest t
  end.

(** The same polynomial as a function on the rationals. *)
Fixpoint evalQ (coeffs : list Z) (t : Q) : Q :=
  match coeffs with
  | [] => 0%Q
  | c :: rest => (inject_Z c + t * evalQ rest t)%Q
  end.

(** [f] is a polynomial function of degree below [n], in Horner form. *)
Fixpoint poly_below (n : nat) (f : Q -> Q) : Prop :=
  match n with
  | O => forall t, (f t == 0)%Q
  | S m => exists c g, poly_below m g /\ forall t, (f t == c + t * g t)%Q
  end.

Definition prodQ (l : list Q) : Q := fold_right Qmult 1%Q l.

(** Lagrange's interpolant of the shares, at [t]. *)
Definition lagrange_at (points : list point) (t : Q) : Q :=
  sumQ (map (fun p =>
               (inject_Z (y p)
                * (prodQ (map (fun q => t - inject_Z (x q)) (others p points))
                   / inject_Z (basis_den p points)))%Q)
            points).

(** ** The caller's selection of shares *)

(** [points.slice(0, k)] (line 129) for an integral [k]: a negative [k]
    counts from the end, and the end is clamped to the array. *)
Definition selectedPoints (points : list point) (k : Z) : list point :=
  let len := Z.of_nat (List.length points) in
  let final := if k <? 0 then Z.max (len + k) 0 else Z.min k len in
  firstn (Z.to_nat final) points.

(** The character [parseInt] reads as the digit [d], in lower case. *)
Definition char_of_digit (d : Z) : ascii :=
  ascii_of_N (Z.to_N (if d <? 10 then 48 + d else 87 + d)).

(** One step of the inner loop on an index other than [i], on the share
    there. *)
Definition multiply_in (xi : Z) (s : Z * Z) (q : point) : Z * Z :=
  (fst s * (0 - x q), snd s * (xi - x q)).

(** ** The decoder on every Number and every string *)

(** The Number passed as [base]. *)
Inductive Number : Type :=
| Integral (z : Z)
    (* an integer of magnitude below 10^21 *)
| Huge (z : Z) (lead : Z)
    (* an integer of magnitude 10^21 or more: its string is in exponent
       notation, of which [parseInt] reads the first digit [lead], with
       the sign *)
| NotIntegral.
    (* NaN, an infinity or a fraction *)

(** A string is the list of its code points.  Those below U+0100 are read
    as the characters above. *)
Definition points_of (s : string) : list N :=
  map N_of_ascii (list_ascii_of_string s).

Section Unicode.

(** The lower-case forms of the Unicode tables for the code points from
    U+0100 on, other than U+0130 and U+212A.  The tables are no part of
    the repository; a form may depend on the code points before and after
    (the final sigma). *)
Variable lower_other : list N -> N -> list N -> list N.

(** The lower-case form of one code point: a character below U+0100 as
    above; U+0130, the capital I with a dot, gives [i] and the combining
    dot U+0307; U+212A, the Kelvin sign, gives [k]. *)
Definition lower_point (before : list N) (cp : N) (after : list N)
  : list N :=
  if (cp <? 256)%N then [N_of_ascii (toLowerCase_char (ascii_of_N cp))]
  else if (cp =? 304)%N then [105; 775]%N
  else if (cp =? 8490)%N then [107]%N
  else lower_other before cp after.

Fixpoint lower_from (before s : list N) : list N :=
  match s with
  | [] => []
  | cp :: after =>
      (lower_point before cp after ++ lower_from (before ++ [cp]) after)%list
  end.

(** [valueStr.toLowerCase()], as the code points the loop goes through. *)
Definition toLowerCase_general (s : list N) : list N := lower_from [] s.

(** [parseInt(char, radix)] on one code point: only the characters below
    U+0100 have digits. *)
Definition parseInt_point (c : N) (radix : Z) : option Z :=
  if (c <? 256)%N then parseInt_char (ascii_of_N c) radix else None.

(** Lines 21-24, with [bigBase] of line 19 and the argument [radix] that
    [parseInt(base)] gives on line 22. *)
Fixpoint decode_points (bigBase radix : Z) (chars : list N) (result : Z)
  : completion Z :=
  match chars with
  | [] => Normal result
  | char :: rest =>
      result' <- (digit <- BigInt_of_number (parseInt_point char radix) ;;
                  Normal (result * bigBase + digit)) ;;
      decode_points bigBase radix rest result'
  end.

(** Lines 17-26.  [BigInt(base)] throws on a Number that is no integer,
    before the loop. *)
Definition decodeValue_general (base : Number) (valueStr : list N)
  : completion Z :=
  match base with
  | Integral z =>
      decode_points z (parseInt_number z) (toLowerCase_general valueStr) 0
  | Huge z lead =>
      decode_points z lead (toLowerCase_general valueStr) 0
  | NotIntegral => Throw RangeError_NotAnInteger
  end.

End Unicode.

(** What the rest of the Unicode tables is known to satisfy: a lower-case
    form is not empty and has no ASCII character. *)
Definition table_ok (table : list N -> N -> list N -> list N) : Prop :=
  forall before cp after,
    (256 <= cp)%N ->
    table before cp after <> [] /\
    Forall (fun c => (128 <= c)%N) (table before cp after).

(** A table that leaves every code point as it is, as the Unicode tables
    do for the code points without case. *)
Definition caseless_table : list N -> N -> list N -> list N :=
  fun _ cp _ => [cp].

(** The digit value of a code point, as the code ends up reading it: the
    alphanumeric ordinal below U+0100, and 20, the value of [k], for the
    Kelvin sign. *)
Definition digit_value_point (cp : N) : option Z :=
  if (cp <? 256)%N then spec_digit_value (ascii_of_N cp)
  else if (cp =? 8490)%N then Some 20
  else None.

(** [cp] has a digit value below [base]. *)
Definition fits (base : Z) (cp : N) : Prop :=
  exists d, digit_value_point cp = Some d /\ d < base.

(** [cp] has no digit value, or one that is not below [base]. *)
Definition unfit (base : Z) (cp : N) : Prop :=
  forall d, digit_value_point cp = Some d -> base <= d.

(** ** Sample runs *)

Example gcd_12_18 : Frac.gcd 12 (-18) = 6.
Proof. vm_compute. reflexivity. Qed.

Example decode_ff : decodeValue 16 "fF" = Normal 255.
Proof. vm_compute. reflexivity. Qed.

Example decode_1010 : decodeValue 2 "1010" = Normal 10.
Proof. vm_compute. reflexivity. Qed.

Example single_share :
  lagrangeInterpolationAtZero [mkPoint 5 42] = ([], Normal 42).
Proof. vm_compute. reflexivity. Qed.

(** ** Facts about completions *)

Lemma bind_Normal {A B : Type} (a : A) (k : A -> completion B) :
  bind (Normal a) k = k a.
Proof. reflexivity. Qed.

Lemma bind_Throw {A B : Type} (e : exn) (k : A -> completion B) :
  bind (Throw e) k = Throw e.
Proof. reflexivity. Qed.

Lemma bigint_div_nonzero (a b : Z) :
  b <> 0 -> bigint_div a b = Normal (Z.quot a b).
Proof.
  intros Hb. unfold bigint_div.
  destruct (Z.eqb_spec b 0); [contradiction | reflexivity].
Qed.

Lemma bigint_div_zero (a : Z) :
  bigint_div a 0 = Throw RangeError_DivisionByZero.
Proof. reflexivity. Qed.

(** ** The Euclidean loop *)

Section Euclid.

Import Frac.

Lemma gcd_loop_zero (a : Z) : gcd_loop a 0 = a.
Proof. simp gcd_loop. reflexivity. Qed.

Lemma gcd_loop_step (a b : Z) :
  b <> 0 -> gcd_loop a b = gcd_loop b (Z.rem a b).
Proof.
  intros Hb. rewrite (gcd_loop_equation_1 a b).
  destruct (Z.eq_dec b 0) as [E | E]; [contradiction | reflexivity].
Qed.

Lemma gcd_loop_spec (a b : Z) :
  0 <= a -> 0 <= b -> gcd_loop a b = Z.gcd a b.
Proof.
  intros Ha Hb. revert a Ha.
  assert (Hm : exists m, Z.abs_nat b = m) by (eexists; reflexivity).
  destruct Hm as [m Hm]. revert b Hb Hm.
  induction m as [m IH] using lt_wf_ind. intros b Hb Hm a Ha.
  destruct (Z.eq_dec b 0) as [-> | Hnz].
  - rewrite gcd_loop_zero, Z.gcd_0_r. symmetry. apply Z.abs_eq. exact Ha.
  - rewrite gcd_loop_step by exact Hnz.
    assert (Hr : 0 <= Z.rem a b < b).
    { apply Z.rem_bound_pos; lia. }
    rewrite (IH (Z.abs_nat (Z.rem a b))) with (b := Z.rem a b); try lia.
    rewrite Z.gcd_comm, Z.gcd_rem by exact Hnz. apply Z.gcd_comm.
Qed.

Lemma gcd_spec (a b : Z) : gcd a b = Z.gcd a b.
Proof.
  unfold gcd.
  rewrite gcd_loop_spec.
  - destruct (Z.ltb_spec a 0), (Z.ltb_spec b 0);
      rewrite ?Z.gcd_opp_l, ?Z.gcd_opp_r; reflexivity.
  - destruct (Z.ltb_spec a 0); lia.
  - destruct (Z.ltb_spec b 0); lia.
Qed.

End Euclid.

(** ** Normal forms of fractions *)

Section Fractions.

Import Frac.

Lemma simplify_reduce (num den : Z) :
  den <> 0 -> simplify num den = Normal (reduce num den).
Proof.
  intros Hden. unfold simplify, reduce.
  destruct (Z.ltb_spec den 0) as [Hneg | Hpos].
  - rewrite gcd_spec.
    replace (Z.gcd (if - num <? 0 then - - num else - num) (- den))
      with (Z.gcd num den)
      by (destruct (- num <? 0);
          rewrite ?Z.gcd_opp_l, ?Z.gcd_opp_r; reflexivity).
    assert (Hg : Z.gcd num den <> 0)
      by (intros E; apply Z.gcd_eq_0_r in E; contradiction).
    rewrite !bigint_div_nonzero by exact Hg. cbn [bind].
    rewrite Z.sgn_neg, Z.abs_neq by lia.
    replace (-1 * num) with (- num) by lia. reflexivity.
  - rewrite gcd_spec.
    replace (Z.gcd (if num <? 0 then - num else num) den)
      with (Z.gcd num den)
      by (destruct (num <? 0); rewrite ?Z.gcd_opp_l; reflexivity).
    assert (Hg : Z.gcd num den <> 0)
      by (intros E; apply Z.gcd_eq_0_r in E; contradiction).
    rewrite !bigint_div_nonzero by exact Hg. cbn [bind].
    rewrite Z.sgn_pos, Z.abs_eq, Z.mul_1_l by lia. reflexivity.
Qed.

(** The quotients of [reduce] are exact. *)
Lemma reduce_exact (num den : Z) :
  den <> 0 ->
  Z.sgn den * num = fst (reduce num den) * Z.gcd num den /\
  Z.abs den = snd (reduce num den) * Z.gcd num den.
Proof.
  intros Hden. unfold reduce. cbn [fst snd].
  assert (Hg : Z.gcd num den <> 0)
    by (intros E; apply Z.gcd_eq_0_r in E; contradiction).
  split.
  - rewrite (Z.mul_comm (Z.quot _ _)). apply Z.quot_exact; [exact Hg |].
    apply Z.rem_divide; [exact Hg |].
    apply Z.divide_mul_r, Z.gcd_divide_l.
  - rewrite (Z.mul_comm (Z.quot _ _)). apply Z.quot_exact; [exact Hg |].
    apply Z.rem_divide; [exact Hg |].
    apply Z.divide_abs_r, Z.gcd_divide_r.
Qed.

Lemma reduce_cross (num den : Z) :
  den <> 0 -> fst (reduce num den) * den = num * snd (reduce num den).
Proof.
  intros Hden.
  destruct (reduce_exact num den Hden) as [Hn Hd].
  assert (Hg : Z.gcd num den <> 0)
    by (intros E; apply Z.gcd_eq_0_r in E; contradiction).
  apply (Z.mul_cancel_r _ _ (Z.gcd num den) Hg).
  destruct (Z.abs_spec den) as [[_ E] | [_ E]];
    destruct (Z.sgn_spec den) as [[? S] | [[? S] | [? S]]];
    rewrite E in Hd; rewrite S in Hn; nia.
Qed.

Lemma reduce_normalized (num den : Z) :
  den <> 0 -> normalized (reduce num den).
Proof.
  intros Hden.
  destruct (reduce_exact num den Hden) as [Hn Hd].
  assert (Hg : 0 < Z.gcd num den).
  { pose proof (Z.gcd_nonneg num den).
    assert (Z.gcd num den <> 0)
      by (intros E; apply Z.gcd_eq_0_r in E; contradiction).
    lia. }
  assert (Hone : Z.gcd (fst (reduce num den)) (snd (reduce num den)) = 1).
  { unfold reduce. cbn [fst snd].
    apply Z.gcd_quot_gcd; [lia |].
    rewrite Z.gcd_abs_r.
    destruct (Z.sgn_spec den) as [[? S] | [[? S] | [? S]]]; rewrite S.
    - f_equal. lia.
    - lia.
    - replace (-1 * num) with (- num) by lia.
      rewrite Z.gcd_opp_l. reflexivity. }
  assert (Hpos : 0 < snd (reduce num den)) by nia.
  unfold normalized. repeat split.
  - exact Hpos.
  - rewrite Z.gcd_abs_l. exact Hone.
  - intros Hz. rewrite Hz, Z.gcd_0_l in Hone. lia.
Qed.

(** Two normalized fractions of the same value are the same pair. *)
Lemma normalized_unique (f g : frac) :
  normalized f -> normalized g ->
  fst f * snd g = fst g * snd f -> f = g.
Proof.
  destruct f as [n d], g as [n' d']. unfold normalized. cbn [fst snd].
  intros (Hd & Hg & _) (Hd' & Hg' & _) Hx.
  rewrite Z.gcd_abs_l in Hg, Hg'.
  assert (D1 : (d | d')).
  { apply Z.gauss with (m := n).
    - exists n'. lia.
    - rewrite Z.gcd_comm. exact Hg. }
  assert (D2 : (d' | d)).
  { apply Z.gauss with (m := n').
    - exists n. lia.
    - rewrite Z.gcd_comm. exact Hg'. }
  assert (E : d = d') by (apply Z.divide_antisym_nonneg; try assumption; lia).
  subst d'. f_equal. nia.
Qed.

End Fractions.

(** ** The decoder *)

Section Decoder.

(** On every character, lower-casing and then reading the digit as
    [parseInt] does is the case-insensitive ordinal of the specification. *)
Lemma digit_agree (c : ascii) :
  digit_of_char (toLowerCase_char c) = spec_digit_value c.
Proof.
  destruct c as [[] [] [] [] [] [] [] []]; vm_compute; reflexivity.
Qed.

Lemma spec_digit_range (c : ascii) (d : Z) :
  spec_digit_value c = Some d -> 0 <= d < 36.
Proof.
  intros H.
  destruct c as [[] [] [] [] [] [] [] []]; vm_compute in H;
    try discriminate; injection H as <-; lia.
Qed.

Lemma ToInt32_small (r : Z) : 0 <= r <= 36 -> ToInt32 r = r.
Proof.
  intros Hr. unfold ToInt32.
  change (2 ^ 32) with 4294967296. change (2 ^ 31) with 2147483648.
  rewrite Z.mod_small by lia.
  destruct (Z.leb_spec 2147483648 r); [lia | reflexivity].
Qed.

Variable base : Z.
Hypothesis base_range : 2 <= base <= 36.

Lemma parseInt_char_valid (c : ascii) (d : Z) :
  spec_digit_value c = Some d -> d < base ->
  parseInt_char (toLowerCase_char c) (parseInt_number base) = Some d.
Proof.
  intros Hd Hlt. unfold parseInt_char, parseInt_number.
  rewrite ToInt32_small by lia.
  destruct (Z.eqb_spec base 0); [lia |].
  destruct (Z.ltb_spec base 2); [lia |].
  destruct (Z.ltb_spec 36 base); [lia |].
  cbn [orb]. rewrite digit_agree, Hd.
  destruct (Z.ltb_spec d base); [reflexivity | lia].
Qed.

Lemma parseInt_char_invalid (c : ascii) :
  invalid_digit base c ->
  parseInt_char (toLowerCase_char c) (parseInt_number base) = None.
Proof.
  intros Hbad. unfold parseInt_char, parseInt_number.
  rewrite ToInt32_small by lia.
  destruct (Z.eqb_spec base 0); [lia |].
  destruct (Z.ltb_spec base 2); [lia |].
  destruct (Z.ltb_spec 36 base); [lia |].
  cbn [orb]. rewrite digit_agree.
  destruct (spec_digit_value c) as [d |] eqn:Hd; [| reflexivity].
  specialize (Hbad d Hd).
  destruct (Z.ltb_spec d base); [lia | reflexivity].
Qed.

(** The loop invariant: the digits read so far are shifted by one place
    for every digit still to come. *)
Lemma decode_loop_positional (chars : list ascii) (ds : list Z) :
  Forall2 (fun c d => spec_digit_value c = Some d /\ d < base) chars ds ->
  forall result,
    decode_loop base (map toLowerCase_char chars) result
    = Normal (result * base ^ Z.of_nat (List.length ds)
              + positional_value base ds).
Proof.
  induction 1 as [| c d chars ds [Hd Hlt] _ IH]; intros result.
  - cbn. f_equal. lia.
  - cbn [map decode_loop]. unfold decode_body.
    rewrite (parseInt_char_valid c d Hd Hlt). cbn [BigInt_of_number bind].
    rewrite IH. f_equal.
    cbn [positional_value List.length].
    rewrite Nat2Z.inj_succ, Z.pow_succ_r by lia. ring.
Qed.

(** The only exception the loop can throw is the one of [BigInt(NaN)]. *)
Lemma decode_loop_completion (chars : list ascii) :
  forall result,
    (exists v, decode_loop base chars result = Normal v) \/
    decode_loop base chars result = Throw RangeError_NotAnInteger.
Proof.
  induction chars as [| c chars IH]; intros result.
  - left. eexists. reflexivity.
  - cbn [decode_loop]. unfold decode_body.
    destruct (parseInt_char c (parseInt_number base)) as [d |].
    + cbn [BigInt_of_number bind]. apply IH.
    + right. reflexivity.
Qed.

Lemma decode_loop_invalid (chars : list ascii) :
  Exists (invalid_digit base) chars ->
  forall result,
    decode_loop base (map toLowerCase_char chars) result
    = Throw RangeError_NotAnInteger.
Proof.
  induction 1 as [c chars Hbad | c chars _ IH]; intros result.
  - cbn [map decode_loop]. unfold decode_body.
    rewrite (parseInt_char_invalid c Hbad). reflexivity.
  - cbn [map decode_loop]. unfold decode_body.
    destruct (parseInt_char (toLowerCase_char c) (parseInt_number base)).
    + cbn [BigInt_of_number bind]. apply IH.
    + reflexivity.
Qed.

End Decoder.

(** C1.  For a base from 2 to 36 and a digit string whose characters are
    all alphanumeric with a digit value below the base, [decodeValue]
    returns the positional value of the digits: the sum, left to right, of
    each digit value times the base to the number of characters after it,
    over unbounded integers. *)
Theorem decodeValue_positional (base : Z) (s : string) (ds : list Z) :
  2 <= base <= 36 ->
  digits_of base s ds ->
  decodeValue base s = Normal (positional_value base ds).
Proof.
  intros Hbase Hds. unfold decodeValue, toLowerCase.
  rewrite (decode_loop_positional base Hbase _ ds Hds 0).
  f_equal.
Qed.

Lemma decodeValue_positional_witness :
  decodeValue 16 "fF" = Normal (positional_value 16 [15; 15]).
Proof.
  apply (decodeValue_positional 16 "fF" [15; 15]).
  - lia.
  - repeat constructor.
Defined.

(** ** The evaluator on concrete shares *)

(** C2, as the code has it.  The shares (1,4), (2,7), (3,12) lie on the
    polynomial [x^2 + 3], not on [x^2 + x + 2], and the evaluator returns
    exactly 3, its value at zero, and warns of nothing. *)
Theorem lagrange_known_value :
  lagrangeInterpolationAtZero [mkPoint 1 4; mkPoint 2 7; mkPoint 3 12]
  = ([], Normal 3).
Proof. vm_compute. reflexivity. Qed.

(** C2 as stated fails: the value returned on these shares is not 2. *)
Lemma known_value_is_not_2 :
  snd (lagrangeInterpolationAtZero
         [mkPoint 1 4; mkPoint 2 7; mkPoint 3 12]) <> Normal 2.
Proof. vm_compute. discriminate. Qed.

(** The shares of [x^2 + x + 2] at 1, 2, 3 are 4, 8, 14; on those the
    evaluator returns 2. *)
Example lagrange_x2_x_2 :
  lagrangeInterpolationAtZero [mkPoint 1 4; mkPoint 2 8; mkPoint 3 14]
  = ([], Normal 2).
Proof. vm_compute. reflexivity. Qed.

(** C8, as the code has it.  On the empty list of shares the evaluator
    returns 0: the loop does not run and the initial fraction 0/1 is
    divided out. *)
Theorem lagrange_empty :
  lagrangeInterpolationAtZero [] = ([], Normal 0).
Proof. vm_compute. reflexivity. Qed.

(** C8 as stated fails: on the empty list nothing is thrown, so no error
    called [InsufficientShares] is. *)
Lemma empty_list_not_rejected :
  ~ raises "InsufficientShares" (snd (lagrangeInterpolationAtZero [])).
Proof.
  intros (e & He & _). vm_compute in He. discriminate.
Qed.

(** C4 as stated fails: the shares (1,0), (3,1) end with the fraction
    -1/2, whose denominator is neither 1 nor -1; the evaluator prints the
    warning and returns the truncated quotient 0, it raises nothing. *)
Lemma lagrange_truncates_silently :
  accumulate [mkPoint 1 0; mkPoint 3 1] = Normal (-1, 2) /\
  lagrangeInterpolationAtZero [mkPoint 1 0; mkPoint 3 1]
  = ([Warn_not_exact_integer], Normal 0) /\
  ~ raises "NonIntegralResult"
      (snd (lagrangeInterpolationAtZero [mkPoint 1 0; mkPoint 3 1])).
Proof.
  split; [| split].
  - vm_compute. reflexivity.
  - vm_compute. reflexivity.
  - intros (e & He & _). vm_compute in He. discriminate.
Qed.

(** C5 as stated fails: on the shares (2,5), (2,9) the evaluator does reach
    a division by zero, and the error thrown is the [RangeError] of that
    division, not one called [DuplicateShareIndex]. *)
Lemma lagrange_duplicate_raw_division :
  lagrangeInterpolationAtZero [mkPoint 2 5; mkPoint 2 9]
  = ([], Throw RangeError_DivisionByZero) /\
  ~ raises "DuplicateShareIndex"
      (snd (lagrangeInterpolationAtZero [mkPoint 2 5; mkPoint 2 9])).
Proof.
  split.
  - vm_compute. reflexivity.
  - intros (e & He & Hname). vm_compute in He. injection He as <-.
    vm_compute in Hname. discriminate.
Qed.

(** ** Shares with a repeated x *)

Section Degenerate.

Import Frac.

Lemma simplify_throws (num den : Z) (e : exn) :
  simplify num den = Throw e -> e = RangeError_DivisionByZero.
Proof.
  unfold simplify.
  destruct (if den <? 0 then (- num, - den) else (num, den)) as [n d].
  unfold bigint_div.
  destruct (_ =? 0); cbn [bind]; intros H; inversion H; reflexivity.
Qed.

Lemma simplify_zero_den (num : Z) : degenerate (simplify num 0).
Proof.
  unfold simplify. change (0 <? 0) with false. cbv iota beta.
  unfold bigint_div.
  destruct (_ =? 0); cbn [bind degenerate snd]; reflexivity.
Qed.

Lemma simplify_degenerate (num den : Z) :
  den = 0 -> degenerate (simplify num den).
Proof. intros ->. apply simplify_zero_den. Qed.

Lemma simplify_zero_zero : simplify 0 0 = Throw RangeError_DivisionByZero.
Proof. vm_compute. reflexivity. Qed.

Lemma mulFrac_throws (f1 f2 : frac) (e : exn) :
  mulFrac f1 f2 = Throw e -> e = RangeError_DivisionByZero.
Proof. destruct f1, f2. apply simplify_throws. Qed.

Lemma addFrac_throws (f1 f2 : frac) (e : exn) :
  addFrac f1 f2 = Throw e -> e = RangeError_DivisionByZero.
Proof. destruct f1, f2. apply simplify_throws. Qed.

Lemma mulFrac_degenerate (f1 f2 : frac) :
  snd f2 = 0 -> degenerate (mulFrac f1 f2).
Proof.
  destruct f1 as [n1 d1], f2 as [n2 d2]. cbn [snd]. intros ->.
  apply simplify_degenerate. lia.
Qed.

Lemma addFrac_degenerate (f1 f2 : frac) :
  snd f1 = 0 \/ snd f2 = 0 -> degenerate (addFrac f1 f2).
Proof.
  destruct f1 as [n1 d1], f2 as [n2 d2]. cbn [snd]. intros H.
  apply simplify_degenerate. nia.
Qed.

Lemma addFrac_both_zero (f1 f2 : frac) :
  snd f1 = 0 -> snd f2 = 0 ->
  addFrac f1 f2 = Throw RangeError_DivisionByZero.
Proof.
  destruct f1 as [n1 d1], f2 as [n2 d2]. cbn [snd]. intros -> ->.
  unfold addFrac. rewrite !Z.mul_0_r. apply simplify_zero_zero.
Qed.

Variable points : list point.

Lemma term_body_throws (i : nat) (result : frac) (e : exn) :
  term_body points i result = Throw e -> e = RangeError_DivisionByZero.
Proof.
  unfold term_body. destruct (basis points i) as [num den].
  destruct (simplify num den) as [li | e1] eqn:Hli; cbn [bind].
  - destruct (mulFrac _ li) as [term | e2] eqn:Hterm; cbn [bind].
    + apply addFrac_throws.
    + intros H. inversion H. subst. eapply mulFrac_throws, Hterm.
  - intros H. inversion H. subst. eapply simplify_throws, Hli.
Qed.

(** Once a denominator is zero the running result is degenerate. *)
Lemma term_body_degenerate (i : nat) (result : frac) :
  snd result = 0 \/ snd (basis points i) = 0 ->
  degenerate (term_body points i result).
Proof.
  intros H. unfold term_body.
  destruct (basis points i) as [num den] eqn:Hb. cbn [snd] in H.
  destruct (simplify num den) as [li | e1] eqn:Hli; cbn [bind].
  - destruct (mulFrac _ li) as [term | e2] eqn:Hterm; cbn [bind].
    + apply addFrac_degenerate.
      destruct H as [H | H]; [left; exact H | right].
      pose proof (simplify_degenerate num den H) as D1.
      rewrite Hli in D1. cbn [degenerate] in D1.
      pose proof (mulFrac_degenerate (y (at_index points i), 1) li D1) as D2.
      rewrite Hterm in D2. exact D2.
    + cbn [degenerate]. eapply mulFrac_throws, Hterm.
  - cbn [degenerate]. eapply simplify_throws, Hli.
Qed.

(** A second zero denominator divides zero by zero. *)
Lemma term_body_collision (i : nat) (result : frac) :
  snd result = 0 -> snd (basis points i) = 0 ->
  term_body points i result = Throw RangeError_DivisionByZero.
Proof.
  intros Hr Hd.
  pose proof (term_body_degenerate i result (or_introl Hr)) as D.
  unfold term_body in *.
  destruct (basis points i) as [num den] eqn:Hb. cbn [snd] in Hd.
  destruct (simplify num den) as [li | e1] eqn:Hli; cbn [bind] in *.
  - destruct (mulFrac _ li) as [term | e2] eqn:Hterm; cbn [bind] in *.
    + apply addFrac_both_zero; [exact Hr |].
      pose proof (simplify_degenerate num den Hd) as D1.
      rewrite Hli in D1. cbn [degenerate] in D1.
      pose proof (mulFrac_degenerate (y (at_index points i), 1) li D1) as D2.
      rewrite Hterm in D2. exact D2.
    + cbn [degenerate] in D. subst e2. reflexivity.
  - cbn [degenerate] in D. subst e1. reflexivity.
Qed.

Lemma for_each_after_zero (j : nat) (indices : list nat) :
  snd (basis points j) = 0 -> In j indices ->
  forall result,
    snd result = 0 ->
    for_each (term_body points) indices result
    = Throw RangeError_DivisionByZero.
Proof.
  intros Hj. induction indices as [| k rest IH]; intros Hin result Hr.
  - destruct Hin.
  - cbn [for_each].
    destruct (Nat.eq_dec k j) as [-> | Hne].
    + rewrite term_body_collision by assumption. reflexivity.
    + pose proof (term_body_degenerate k result (or_introl Hr)) as D.
      destruct (term_body points k result) as [r | e]; cbn [bind].
      * apply IH; [| exact D].
        destruct Hin as [E | Hin]; [contradiction | exact Hin].
      * cbn [degenerate] in D. subst e. reflexivity.
Qed.

Lemma for_each_two_zeros (i j : nat) (indices : list nat) :
  i <> j ->
  snd (basis points i) = 0 -> snd (basis points j) = 0 ->
  In i indices -> In j indices ->
  forall result,
    for_each (term_body points) indices result
    = Throw RangeError_DivisionByZero.
Proof.
  intros Hij Hi Hj.
  induction indices as [| k rest IH]; intros Ini Inj result.
  - destruct Ini.
  - cbn [for_each].
    destruct (term_body points k result) as [r | e] eqn:Hk; cbn [bind].
    + destruct (Nat.eq_dec k i) as [-> | Hki].
      * pose proof (term_body_degenerate i result (or_intror Hi)) as D.
        rewrite Hk in D. cbn [degenerate] in D.
        apply (for_each_after_zero j); try assumption.
        destruct Inj as [E | Inj]; [contradiction | exact Inj].
      * destruct (Nat.eq_dec k j) as [-> | Hkj].
        -- pose proof (term_body_degenerate j result (or_intror Hj)) as D.
           rewrite Hk in D. cbn [degenerate] in D.
           apply (for_each_after_zero i); try assumption.
           destruct Ini as [E | Ini]; [congruence | exact Ini].
        -- apply IH.
           ++ destruct Ini as [E | Ini]; [contradiction | exact Ini].
           ++ destruct Inj as [E | Inj]; [contradiction | exact Inj].
    + f_equal. eapply term_body_throws, Hk.
Qed.

(** The denominator of the basis fraction is a product with a zero
    factor when another share has the same [x]. *)
Lemma basis_fold_zero (i : nat) (xi : Z) (indices : list nat) :
  forall s,
    snd s = 0 \/
    (exists j, In j indices /\ i <> j /\ x (at_index points j) = xi) ->
    snd (fold_left (basis_body points i xi) indices s) = 0.
Proof.
  induction indices as [| k rest IH]; intros s H.
  - destruct H as [H | (j & [] & _)]. exact H.
  - cbn [fold_left]. apply IH.
    destruct H as [H | (j & [E | Hin] & Hne & Hx)].
    + left. unfold basis_body. destruct (Nat.eqb i k); cbn [snd]; [exact H |].
      rewrite H. apply Z.mul_0_l.
    + subst k. left. unfold basis_body.
      destruct (Nat.eqb_spec i j); [contradiction |].
      cbn [snd]. rewrite Hx. lia.
    + right. exists j. auto.
Qed.

Lemma basis_zero (i j : nat) :
  (j < List.length points)%nat -> i <> j ->
  x (at_index points j) = x (at_index points i) ->
  snd (basis points i) = 0.
Proof.
  intros Hj Hne Hx. unfold basis. apply basis_fold_zero.
  right. exists j. split; [| split; assumption].
  apply in_seq. lia.
Qed.

End Degenerate.

(** C5, as the code has it.  When two of the shares have the same [x], the
    evaluator throws the [RangeError] of a BigInt division by zero, and
    prints nothing; no value is returned. *)
Theorem lagrange_duplicate_throws (points : list point) :
  has_duplicate_x points ->
  lagrangeInterpolationAtZero points = ([], Throw RangeError_DivisionByZero).
Proof.
  intros (i & j & Hi & Hj & Hne & Hx).
  unfold lagrangeInterpolationAtZero, accumulate.
  rewrite (for_each_two_zeros points i j); try assumption.
  - reflexivity.
  - apply (basis_zero points i j); auto.
  - apply (basis_zero points j i); auto.
  - apply in_seq. lia.
  - apply in_seq. lia.
Qed.

Lemma lagrange_duplicate_throws_witness :
  lagrangeInterpolationAtZero [mkPoint 2 5; mkPoint 7 1; mkPoint 2 9]
  = ([], Throw RangeError_DivisionByZero).
Proof.
  apply (lagrange_duplicate_throws [mkPoint 2 5; mkPoint 7 1; mkPoint 2 9]).
  exists 0%nat, 2%nat. cbn. repeat split; try lia.
Defined.

(** ** Values of the rational helpers *)

Section Values.

Import Frac.

Lemma inject_Z_nonzero (z : Z) : z <> 0 -> ~ (inject_Z z == 0)%Q.
Proof.
  intros Hz E. apply Hz. change 0%Q with (inject_Z 0) in E.
  exact (proj1 (inject_Z_injective _ _) E).
Qed.

Lemma Qdiv_cross (a b c d : Z) :
  b <> 0 -> d <> 0 ->
  (inject_Z a / inject_Z b == inject_Z c / inject_Z d)%Q <-> a * d = c * b.
Proof.
  intros Hb Hd.
  pose proof (inject_Z_nonzero b Hb) as Hb'.
  pose proof (inject_Z_nonzero d Hd) as Hd'.
  rewrite <- inject_Z_injective, !inject_Z_mult.
  split; intros H.
  - setoid_replace (inject_Z a * inject_Z d)%Q
      with ((inject_Z a / inject_Z b) * (inject_Z b * inject_Z d))%Q
      by (field; assumption).
    rewrite H. field. assumption.
  - setoid_replace (inject_Z a / inject_Z b)%Q
      with ((inject_Z a * inject_Z d) / (inject_Z b * inject_Z d))%Q
      by (field; split; assumption).
    rewrite H. field. split; assumption.
Qed.

Lemma normalized_nonzero (f : frac) : normalized f -> snd f <> 0.
Proof. intros (H & _). lia. Qed.

Lemma normalized_start : normalized (0, 1).
Proof. unfold normalized. cbn. repeat split; lia. Qed.

Lemma toQ_reduce (num den : Z) :
  den <> 0 -> (toQ (reduce num den) == inject_Z num / inject_Z den)%Q.
Proof.
  intros Hden. unfold toQ. apply Qdiv_cross.
  - apply normalized_nonzero, reduce_normalized, Hden.
  - exact Hden.
  - apply reduce_cross, Hden.
Qed.

Lemma toQ_unique (f g : frac) :
  normalized f -> normalized g -> (toQ f == toQ g)%Q -> f = g.
Proof.
  intros Hf Hg E. apply normalized_unique; try assumption.
  apply Qdiv_cross; try apply normalized_nonzero; assumption.
Qed.

Lemma simplify_value (num den : Z) :
  den <> 0 ->
  exists f, simplify num den = Normal f /\ normalized f /\
            (toQ f == inject_Z num / inject_Z den)%Q.
Proof.
  intros Hden. exists (reduce num den). repeat split.
  - apply simplify_reduce, Hden.
  - apply (reduce_normalized num den Hden).
  - apply (reduce_normalized num den Hden).
  - apply (reduce_normalized num den Hden).
  - apply toQ_reduce, Hden.
Qed.

Lemma mulFrac_value (f1 f2 : frac) :
  snd f1 <> 0 -> snd f2 <> 0 ->
  exists f, mulFrac f1 f2 = Normal f /\ normalized f /\
            (toQ f == toQ f1 * toQ f2)%Q.
Proof.
  destruct f1 as [n1 d1], f2 as [n2 d2]. cbn [snd]. intros H1 H2.
  assert (Hd : d1 * d2 <> 0) by nia.
  destruct (simplify_value (n1 * n2) (d1 * d2) Hd) as (f & Hf & Hn & Hq).
  exists f. repeat split; try apply Hn; [exact Hf |].
  rewrite Hq. unfold toQ. cbn [fst snd]. rewrite !inject_Z_mult.
  field. split; apply inject_Z_nonzero; assumption.
Qed.

Lemma addFrac_value (f1 f2 : frac) :
  snd f1 <> 0 -> snd f2 <> 0 ->
  exists f, addFrac f1 f2 = Normal f /\ normalized f /\
            (toQ f == toQ f1 + toQ f2)%Q.
Proof.
  destruct f1 as [n1 d1], f2 as [n2 d2]. cbn [snd]. intros H1 H2.
  assert (Hd : d1 * d2 <> 0) by nia.
  destruct (simplify_value (n1 * d2 + n2 * d1) (d1 * d2) Hd)
    as (f & Hf & Hn & Hq).
  exists f. repeat split; try apply Hn; [exact Hf |].
  rewrite Hq. unfold toQ. cbn [fst snd].
  rewrite inject_Z_plus, !inject_Z_mult.
  field. split; apply inject_Z_nonzero; assumption.
Qed.

Lemma sumQ_cons (a : Q) (l : list Q) : sumQ (a :: l) = (a + sumQ l)%Q.
Proof. reflexivity. Qed.

Variable points : list point.

(** One iteration of the outer loop when no denominator is zero: the
    three fractions it builds are normalized, and the running result grows
    by the term of share [i]. *)
Lemma term_body_value (i : nat) (result : frac) :
  snd result <> 0 -> snd (basis points i) <> 0 ->
  exists li term result',
    simplify (fst (basis points i)) (snd (basis points i)) = Normal li /\
    mulFrac (y (at_index points i), 1) li = Normal term /\
    addFrac result term = Normal result' /\
    term_body points i result = Normal result' /\
    normalized li /\ normalized term /\ normalized result' /\
    (toQ result' ==
     toQ result
     + inject_Z (y (at_index points i))
       * (inject_Z (fst (basis points i)) / inject_Z (snd (basis points i))))%Q.
Proof.
  intros Hr Hb. unfold term_body.
  destruct (basis points i) as [num den]. cbn [fst snd] in *.
  destruct (simplify_value num den Hb) as (li & Hli & Nli & Qli).
  destruct (mulFrac_value (y (at_index points i), 1) li)
    as (term & Hterm & Nterm & Qterm);
    [cbn; lia | apply normalized_nonzero, Nli |].
  destruct (addFrac_value result term Hr (normalized_nonzero _ Nterm))
    as (r & Hres & Nr & Qr).
  exists li, term, r. rewrite Hli. cbn [bind]. rewrite Hterm. cbn [bind].
  repeat split; try assumption; try apply Nli; try apply Nterm;
    try apply Nr.
  rewrite Qr, Qterm, Qli. unfold toQ at 2. cbn [fst snd].
  field. apply inject_Z_nonzero, Hb.
Qed.

Lemma for_each_value (indices : list nat) :
  (forall i, In i indices -> snd (basis points i) <> 0) ->
  forall result,
    normalized result ->
    exists f,
      for_each (term_body points) indices result = Normal f /\
      normalized f /\
      (toQ f ==
       toQ result
       + sumQ (map (fun i =>
                      inject_Z (y (at_index points i))
                      * (inject_Z (fst (basis points i))
                         / inject_Z (snd (basis points i))))
                   indices))%Q.
Proof.
  induction indices as [| i rest IH]; intros Hnz result Hn.
  - exists result. repeat split; try apply Hn.
    cbn [map sumQ fold_right]. rewrite Qplus_0_r. reflexivity.
  - destruct (term_body_value i result (normalized_nonzero _ Hn))
      as (li & term & r & _ & _ & _ & Hr & _ & _ & Nr & Qr).
    { apply Hnz. left. reflexivity. }
    destruct (IH (fun k Hk => Hnz k (or_intror Hk)) r Nr)
      as (f & Hf & Nf & Qf).
    exists f. cbn [for_each]. rewrite Hr. cbn [bind].
    repeat split; try apply Nf; [exact Hf |].
    rewrite Qf, Qr. cbn [map]. rewrite sumQ_cons. ring.
Qed.

End Values.

(** ** Shares with pairwise distinct x *)

Section Distinct.

Import Frac.

Lemma fold_left_ext_in {S A : Type} (f g : S -> A -> S) (l : list A) :
  (forall s a, In a l -> f s a = g s a) ->
  forall s, fold_left f l s = fold_left g l s.
Proof.
  induction l as [| a l IH]; intros Hfg s; [reflexivity |].
  cbn [fold_left]. rewrite Hfg by (left; reflexivity).
  apply IH. intros s' b Hb. apply Hfg. right. exact Hb.
Qed.

Lemma fold_left_over_map {S A B : Type} (f : S -> B -> S) (h : A -> B)
    (l : list A) :
  forall s, fold_left f (map h l) s = fold_left (fun s a => f s (h a)) l s.
Proof.
  induction l as [| a l IH]; intros s; [reflexivity |].
  cbn [map fold_left]. apply IH.
Qed.

(** Reading a list index by index gives the list back. *)
Lemma map_seq_nth {A : Type} (l : list A) (d : A) :
  map (fun j => nth j l d) (seq 0 (List.length l)) = l.
Proof.
  induction l as [| a l IH]; [reflexivity |].
  cbn [List.length seq map nth]. f_equal.
  rewrite <- seq_shift, map_map. exact IH.
Qed.

Lemma fold_by_value (xi : Z) (l : list point) :
  forall s,
    fold_left (basis_by_value xi) l s
    = (fst s * product (map (fun q => 0 - x q)
                            (filter (fun q => negb (x q =? xi)) l)),
       snd s * product (map (fun q => xi - x q)
                            (filter (fun q => negb (x q =? xi)) l))).
Proof.
  induction l as [| q l IH]; intros [a b].
  - cbn. f_equal; lia.
  - cbn [fold_left filter]. rewrite IH. unfold basis_by_value.
    destruct (x q =? xi); cbn [negb map product fold_right fst snd].
    + reflexivity.
    + fold (product (map (fun q => 0 - x q)
                         (filter (fun q => negb (x q =? xi)) l))).
      fold (product (map (fun q => xi - x q)
                         (filter (fun q => negb (x q =? xi)) l))).
      f_equal; ring.
Qed.

Lemma x_at_index (points : list point) (i : nat) :
  x (at_index points i) = nth i (map x points) 0.
Proof.
  unfold at_index. symmetry.
  exact (map_nth x points (mkPoint 0 0) i).
Qed.

(** With distinct [x], skipping index [i] is skipping the shares whose [x]
    is that of share [i]. *)
Lemma basis_value (points : list point) (i : nat) :
  NoDup (map x points) -> (i < List.length points)%nat ->
  basis points i
  = (basis_num (at_index points i) points,
     basis_den (at_index points i) points).
Proof.
  intros Hnd Hi. unfold basis.
  rewrite (fold_left_ext_in _
             (fun s j => basis_by_value (x (at_index points i)) s
                           (nth j points (mkPoint 0 0)))).
  - rewrite <- (fold_left_over_map
                  (basis_by_value (x (at_index points i)))
                  (fun j => nth j points (mkPoint 0 0))).
    rewrite map_seq_nth, fold_by_value. cbn [fst snd].
    unfold basis_num, basis_den, others. f_equal; lia.
  - intros s j Hj. apply in_seq in Hj.
    unfold basis_body, basis_by_value. fold (at_index points j).
    destruct (Nat.eqb_spec i j) as [-> | Hne].
    + rewrite Z.eqb_refl. reflexivity.
    + destruct (Z.eqb_spec (x (at_index points j)) (x (at_index points i)))
        as [E | _]; [| reflexivity].
      exfalso. apply Hne. rewrite !x_at_index in E.
      apply (proj1 (NoDup_nth (map x points) 0) Hnd);
        rewrite ?length_map; lia.
Qed.

Lemma basis_den_nonzero (p : point) (points : list point) :
  basis_den p points <> 0.
Proof.
  unfold basis_den, others.
  induction points as [| q l IH]; cbn [filter].
  - cbn. lia.
  - destruct (Z.eqb_spec (x q) (x p)) as [E | Hne]; cbn [negb].
    + exact IH.
    + cbn [map product fold_right].
      fold (product (map (fun q => x p - x q)
                         (filter (fun q => negb (x q =? x p)) l))).
      nia.
Qed.

Lemma accumulate_value (points : list point) :
  NoDup (map x points) ->
  exists f, accumulate points = Normal f /\ normalized f /\
            (toQ f == lagrangeQ points)%Q.
Proof.
  intros Hnd. unfold accumulate.
  destruct (for_each_value points (seq 0 (List.length points)))
    with (result := (0, 1)) as (f & Hf & Nf & Qf).
  - intros i Hi. apply in_seq in Hi.
    rewrite basis_value by (assumption || lia).
    apply basis_den_nonzero.
  - apply normalized_start.
  - exists f. repeat split; try apply Nf; [exact Hf |].
    rewrite Qf. unfold lagrangeQ.
    rewrite (map_ext_in _
               (fun i => termQ points (nth i points (mkPoint 0 0)))).
    + rewrite <- (map_map (fun i => nth i points (mkPoint 0 0))
                          (termQ points)).
      rewrite map_seq_nth. unfold toQ. cbn [fst snd].
      setoid_replace (inject_Z 0 / inject_Z 1)%Q with 0%Q by reflexivity.
      apply Qplus_0_l.
    + intros i Hi. apply in_seq in Hi.
      rewrite basis_value by (assumption || lia). reflexivity.
Qed.

Lemma product_Permutation (l l' : list Z) :
  Permutation l l' -> product l = product l'.
Proof.
  induction 1 as [| a l l' _ IH | a b l | l l' l'' _ IH1 _ IH2].
  - reflexivity.
  - cbn. f_equal. exact IH.
  - cbn. ring.
  - congruence.
Qed.

Lemma filter_Permutation {A : Type} (f : A -> bool) (l l' : list A) :
  Permutation l l' -> Permutation (filter f l) (filter f l').
Proof.
  induction 1 as [| a l l' _ IH | a b l | l l' l'' _ IH1 _ IH2].
  - constructor.
  - cbn. destruct (f a); [constructor |]; exact IH.
  - cbn. destruct (f a), (f b); try reflexivity. constructor.
  - eapply perm_trans; eassumption.
Qed.

Lemma sumQ_Permutation (l l' : list Q) :
  Permutation l l' -> (sumQ l == sumQ l')%Q.
Proof.
  induction 1 as [| a l l' _ IH | a b l | l l' l'' _ IH1 _ IH2].
  - reflexivity.
  - rewrite !sumQ_cons, IH. reflexivity.
  - rewrite !sumQ_cons. ring.
  - rewrite IH1. exact IH2.
Qed.

Lemma termQ_Permutation (l l' : list point) (p : point) :
  Permutation l l' -> termQ l p = termQ l' p.
Proof.
  intros HP. unfold termQ, basis_num, basis_den, others.
  rewrite (product_Permutation
             (map (fun q => 0 - x q) (filter (fun q => negb (x q =? x p)) l))
             (map (fun q => 0 - x q) (filter (fun q => negb (x q =? x p)) l')))
    by (apply Permutation_map, filter_Permutation, HP).
  rewrite (product_Permutation
             (map (fun q => x p - x q) (filter (fun q => negb (x q =? x p)) l))
             (map (fun q => x p - x q) (filter (fun q => negb (x q =? x p)) l')))
    by (apply Permutation_map, filter_Permutation, HP).
  reflexivity.
Qed.

Lemma lagrangeQ_Permutation (l l' : list point) :
  Permutation l l' -> (lagrangeQ l == lagrangeQ l')%Q.
Proof.
  intros HP. unfold lagrangeQ.
  rewrite (map_ext _ _ (fun p => termQ_Permutation l l' p HP)).
  apply sumQ_Permutation, Permutation_map, HP.
Qed.

End Distinct.

(** C3.  For every list of shares whose [x] are pairwise distinct and every
    permutation of it, the evaluator gives the same outcome (console and
    returned value) on the permuted list as on the list. *)
Theorem lagrange_permutation_invariant (points points' : list point) :
  NoDup (map x points) ->
  Permutation points points' ->
  lagrangeInterpolationAtZero points' = lagrangeInterpolationAtZero points.
Proof.
  intros Hnd HP.
  assert (Hnd' : NoDup (map x points')).
  { eapply Permutation_NoDup; [| exact Hnd]. apply Permutation_map, HP. }
  destruct (accumulate_value points Hnd) as (f & Hf & Nf & Qf).
  destruct (accumulate_value points' Hnd') as (f' & Hf' & Nf' & Qf').
  unfold lagrangeInterpolationAtZero. rewrite Hf, Hf'.
  f_equal. apply toQ_unique; try assumption.
  rewrite Qf, Qf'. symmetry. apply lagrangeQ_Permutation, HP.
Qed.

Lemma lagrange_permutation_invariant_witness :
  lagrangeInterpolationAtZero [mkPoint 3 12; mkPoint 1 4; mkPoint 2 7]
  = lagrangeInterpolationAtZero [mkPoint 1 4; mkPoint 2 7; mkPoint 3 12].
Proof.
  apply (lagrange_permutation_invariant
           [mkPoint 1 4; mkPoint 2 7; mkPoint 3 12]
           [mkPoint 3 12; mkPoint 1 4; mkPoint 2 7]).
  - cbn. repeat constructor; cbn; lia.
  - apply Permutation_sym. apply perm_trans with
      [mkPoint 1 4; mkPoint 3 12; mkPoint 2 7].
    + apply perm_swap.
    + apply perm_skip, perm_swap.
Defined.

(** ** The final fraction *)

Section Final.

Import Frac.

(** A list of [x] values with a repetition has two indices that hold the
    same value. *)
Lemma repeated_x_indices (points : list point) :
  ~ NoDup (map x points) -> has_duplicate_x points.
Proof.
  induction points as [| a l IH]; intros Hdup.
  - exfalso. apply Hdup. constructor.
  - destruct (in_dec Z.eq_dec (x a) (map x l)) as [Hin | Hout].
    + destruct (In_nth _ _ 0 Hin) as (n & Hn & Hx).
      rewrite length_map in Hn.
      exists 0%nat, (S n). cbn [List.length]. repeat split; try lia.
      rewrite (x_at_index (a :: l) (S n)). cbn [map nth at_index].
      symmetry. exact Hx.
    + destruct IH as (i & j & Hi & Hj & Hne & Hx).
      { intros Hnd. apply Hdup. cbn [map]. constructor; assumption. }
      exists (S i), (S j). cbn [List.length]. repeat split; try lia.
      exact Hx.
Qed.

Lemma for_each_throws (points : list point) (indices : list nat) :
  forall result e,
    for_each (term_body points) indices result = Throw e ->
    e = RangeError_DivisionByZero.
Proof.
  induction indices as [| i rest IH]; intros result e H.
  - discriminate.
  - cbn [for_each] in H.
    destruct (term_body points i result) as [r | e'] eqn:Hi; cbn [bind] in H.
    + eapply IH, H.
    + inversion H. subst. eapply term_body_throws, Hi.
Qed.

(** Whenever the outer loop ends without throwing, its result is
    normalized. *)
Lemma accumulate_normalized (points : list point) (f : frac) :
  accumulate points = Normal f -> normalized f.
Proof.
  intros Hf.
  destruct (NoDup_dec Z.eq_dec (map x points)) as [Hnd | Hdup].
  - destruct (accumulate_value points Hnd) as (g & Hg & Ng & _).
    congruence.
  - destruct (repeated_x_indices points Hdup)
      as (i & j & Hi & Hj & Hne & Hx).
    unfold accumulate in Hf.
    rewrite (for_each_two_zeros points i j) in Hf; try assumption.
    + discriminate.
    + apply (basis_zero points i j); auto.
    + apply (basis_zero points j i); auto.
    + apply in_seq. lia.
    + apply in_seq. lia.
Qed.

End Final.

(** C4, as the code has it.  Whenever the final fraction has a denominator
    other than 1 and -1, the evaluator prints a warning and returns the
    numerator divided by the denominator, truncated toward zero; it raises
    nothing. *)
Theorem lagrange_non_integral_warns (points : list point) (f : Frac.frac) :
  accumulate points = Normal f ->
  snd f <> 1 -> snd f <> -1 ->
  lagrangeInterpolationAtZero points
  = ([Warn_not_exact_integer], Normal (Z.quot (fst f) (snd f))).
Proof.
  intros Hf H1 Hm1.
  pose proof (normalized_nonzero f (accumulate_normalized points f Hf)) as Hnz.
  unfold lagrangeInterpolationAtZero. rewrite Hf. unfold finish.
  destruct (Z.eqb_spec (snd f) 1); [contradiction |].
  destruct (Z.eqb_spec (snd f) (-1)); [contradiction |].
  cbn [negb andb]. rewrite bigint_div_nonzero by exact Hnz. reflexivity.
Qed.

Lemma lagrange_non_integral_warns_witness :
  lagrangeInterpolationAtZero [mkPoint 1 0; mkPoint 3 1]
  = ([Warn_not_exact_integer], Normal (Z.quot (-1) 2)).
Proof.
  apply (lagrange_non_integral_warns [mkPoint 1 0; mkPoint 3 1] (-1, 2)).
  - vm_compute. reflexivity.
  - cbn. lia.
  - cbn. lia.
Defined.

(** C6.  From inputs with nonzero denominators, [simplify], [addFrac] and
    [mulFrac] return a fraction with a positive denominator, numerator and
    denominator coprime, and denominator 1 when the numerator is 0
    ([simplify] of a zero numerator is the pair (0, 1)).  In the evaluation,
    an iteration of the outer loop whose running result and basis
    denominator are nonzero builds three such fractions; with pairwise
    distinct [x] every basis denominator is nonzero and the running result
    after any number of iterations is such a fraction. *)
Theorem fractions_normalized :
  (forall num den, den <> 0 ->
     exists f, Frac.simplify num den = Normal f /\ normalized f) /\
  (forall den, den <> 0 -> Frac.simplify 0 den = Normal (0, 1)) /\
  (forall f1 f2, snd f1 <> 0 -> snd f2 <> 0 ->
     exists f, Frac.addFrac f1 f2 = Normal f /\ normalized f) /\
  (forall f1 f2, snd f1 <> 0 -> snd f2 <> 0 ->
     exists f, Frac.mulFrac f1 f2 = Normal f /\ normalized f) /\
  (forall points i result,
     snd result <> 0 -> snd (basis points i) <> 0 ->
     exists li term result',
       Frac.simplify (fst (basis points i)) (snd (basis points i))
       = Normal li /\
       Frac.mulFrac (y (at_index points i), 1) li = Normal term /\
       Frac.addFrac result term = Normal result' /\
       term_body points i result = Normal result' /\
       normalized li /\ normalized term /\ normalized result') /\
  (forall points, NoDup (map x points) ->
     (forall i, (i < List.length points)%nat ->
                snd (basis points i) <> 0) /\
     (forall k, (k <= List.length points)%nat ->
        exists f, for_each (term_body points) (seq 0 k) (0, 1) = Normal f /\
                  normalized f)).
Proof.
  repeat apply conj.
  - intros num den Hden.
    destruct (simplify_value num den Hden) as (f & Hf & Nf & _). eauto.
  - intros den Hden. rewrite simplify_reduce by exact Hden. f_equal.
    pose proof (reduce_normalized 0 den Hden) as (_ & _ & Hz).
    assert (E : fst (reduce 0 den) = 0).
    { unfold reduce. cbn [fst]. rewrite Z.mul_0_r. reflexivity. }
    specialize (Hz E). destruct (reduce 0 den) as [n d].
    cbn [fst snd] in *. congruence.
  - intros f1 f2 H1 H2.
    destruct (addFrac_value f1 f2 H1 H2) as (f & Hf & Nf & _). eauto.
  - intros f1 f2 H1 H2.
    destruct (mulFrac_value f1 f2 H1 H2) as (f & Hf & Nf & _). eauto.
  - intros points i result Hr Hb.
    destruct (term_body_value points i result Hr Hb)
      as (li & term & r & H1 & H2 & H3 & H4 & N1 & N2 & N3 & _).
    exists li, term, r. repeat split; try assumption;
      try apply N1; try apply N2; try apply N3.
  - intros points Hnd. split.
    + intros i Hi. rewrite basis_value by assumption.
      apply basis_den_nonzero.
    + intros k Hk.
      destruct (for_each_value points (seq 0 k)) with (result := (0, 1))
        as (f & Hf & Nf & _).
      * intros i Hi. apply in_seq in Hi.
        rewrite basis_value by (assumption || lia).
        apply basis_den_nonzero.
      * apply normalized_start.
      * eauto.
Qed.

Lemma fractions_normalized_witness :
  exists f, Frac.simplify 6 (-4) = Normal f /\ normalized f.
Proof.
  apply (proj1 fractions_normalized 6 (-4)). lia.
Defined.

(** ** Termination *)

Section Termination.

Import Frac.

(** From any state the loop of [gcd] leaves after at most [|b|]
    iterations, and [gcd_loop] is the [a] of the state it leaves with. *)
Lemma gcd_loop_iterations (b : Z) :
  forall a,
  exists n,
    (n <= Z.abs_nat b)%nat /\
    snd (Nat.iter n gcd_body (a, b)) = 0 /\
    (forall m, (m < n)%nat -> snd (Nat.iter m gcd_body (a, b)) <> 0) /\
    gcd_loop a b = fst (Nat.iter n gcd_body (a, b)).
Proof.
  assert (Hm : exists k, Z.abs_nat b = k) by (eexists; reflexivity).
  destruct Hm as [k Hk]. revert b Hk.
  induction k as [k IH] using lt_wf_ind. intros b Hk a.
  destruct (Z.eq_dec b 0) as [-> | Hnz].
  - exists 0%nat. cbn [Nat.iter fst snd]. split; [| split; [| split]].
    + lia.
    + reflexivity.
    + intros m Hm. lia.
    + apply gcd_loop_zero.
  - assert (Hdec : (Z.abs_nat (Z.rem a b) < k)%nat).
    { pose proof (Z.rem_bound_abs a b Hnz). lia. }
    destruct (IH _ Hdec (Z.rem a b) eq_refl b) as (n & Hn & Hexit & Hrun & Hg).
    exists (S n).
    assert (Hshift : forall m,
               Nat.iter (S m) gcd_body (a, b)
               = Nat.iter m gcd_body (b, Z.rem a b)).
    { intros m. rewrite Nat.iter_succ_r. reflexivity. }
    split; [| split; [| split]].
    + lia.
    + rewrite Hshift. exact Hexit.
    + intros [| m] Hm.
      * cbn [Nat.iter snd]. exact Hnz.
      * rewrite Hshift. apply Hrun. lia.
    + rewrite Hshift, gcd_loop_step by exact Hnz. exact Hg.
Qed.

End Termination.

(** C9.  The loop of [gcd] leaves after finitely many iterations for all
    pairs of integers, with [gcd] the result; [decodeValue] and the
    evaluator give a completion, a value or an exception, on every
    input. *)
Theorem evaluation_terminates :
  (forall a b,
     exists n,
       (n <= Z.abs_nat b)%nat /\
       snd (Nat.iter n Frac.gcd_body (Z.abs a, Z.abs b)) = 0 /\
       (forall m, (m < n)%nat ->
          snd (Nat.iter m Frac.gcd_body (Z.abs a, Z.abs b)) <> 0) /\
       Frac.gcd a b = fst (Nat.iter n Frac.gcd_body (Z.abs a, Z.abs b))) /\
  (forall base valueStr,
     (exists v, decodeValue base valueStr = Normal v) \/
     decodeValue base valueStr = Throw RangeError_NotAnInteger) /\
  (forall points,
     exists console,
       (exists v, lagrangeInterpolationAtZero points = (console, Normal v)) \/
       lagrangeInterpolationAtZero points
       = (console, Throw RangeError_DivisionByZero)).
Proof.
  repeat apply conj.
  - intros a b.
    destruct (gcd_loop_iterations (Z.abs b) (Z.abs a))
      as (n & Hn & Hexit & Hrun & Hg).
    exists n. split; [| split; [| split]]; try assumption.
    + lia.
    + rewrite <- Hg. unfold Frac.gcd.
      f_equal.
      * destruct (Z.ltb_spec a 0); lia.
      * destruct (Z.ltb_spec b 0); lia.
  - intros base valueStr. unfold decodeValue. apply decode_loop_completion.
  - intros points. unfold lagrangeInterpolationAtZero.
    destruct (accumulate points) as [f | e] eqn:Hf.
    + unfold finish. eexists. unfold bigint_div.
      destruct (snd f =? 0); [right | left; eexists]; reflexivity.
    + exists []. right. do 2 f_equal.
      unfold accumulate in Hf. eapply for_each_throws, Hf.
Qed.

(** ** More on the decoder *)

Section DecoderMore.

Lemma list_ascii_of_string_app (s1 s2 : string) :
  list_ascii_of_string (s1 ++ s2)
  = (list_ascii_of_string s1 ++ list_ascii_of_string s2)%list.
Proof.
  induction s1 as [| c s1 IH]; [reflexivity |].
  cbn. f_equal. exact IH.
Qed.

Lemma toLowerCase_length (s : string) :
  List.length (toLowerCase s) = String.length s.
Proof.
  unfold toLowerCase. rewrite length_map.
  induction s as [| c s IH]; [reflexivity |]. cbn. f_equal. exact IH.
Qed.

Lemma decode_loop_app (base : Z) (l1 l2 : list ascii) :
  forall result,
    decode_loop base (l1 ++ l2) result
    = bind (decode_loop base l1 result) (decode_loop base l2).
Proof.
  induction l1 as [| c l1 IH]; intros result; [reflexivity |].
  cbn [app decode_loop].
  destruct (decode_body base result c) as [r | e]; cbn [bind];
    [apply IH | reflexivity].
Qed.

(** The loop is affine in the value it starts from. *)
Lemma decode_loop_shift (base : Z) (l : list ascii) :
  forall result v,
    decode_loop base l result = Normal v ->
    forall result',
      decode_loop base l result'
      = Normal (v + (result' - result) * base ^ Z.of_nat (List.length l)).
Proof.
  induction l as [| c l IH]; intros result v Hv result'.
  - cbn in *. inversion Hv. f_equal. lia.
  - cbn [decode_loop] in *. unfold decode_body in *.
    destruct (BigInt_of_number _) as [d | e]; cbn [bind] in *;
      [| discriminate].
    rewrite (IH _ _ Hv (result' * base + d)). f_equal.
    cbn [List.length]. rewrite Nat2Z.inj_succ, Z.pow_succ_r by lia. ring.
Qed.

Lemma digit_of_char_nonneg (c : ascii) (d : Z) :
  digit_of_char c = Some d -> 0 <= d < 36.
Proof.
  intros H.
  destruct c as [[] [] [] [] [] [] [] []]; vm_compute in H;
    try discriminate; injection H as <-; lia.
Qed.

Lemma parseInt_char_range (base : Z) (c : ascii) (d : Z) :
  2 <= base <= 36 ->
  parseInt_char c (parseInt_number base) = Some d -> 0 <= d < base.
Proof.
  intros Hb. unfold parseInt_char, parseInt_number.
  rewrite ToInt32_small by lia.
  destruct (Z.eqb_spec base 0); [lia |].
  destruct (Z.ltb_spec base 2); [lia |].
  destruct (Z.ltb_spec 36 base); [lia |]. cbn [orb].
  destruct (digit_of_char c) as [d' |] eqn:Hd; [| discriminate].
  destruct (Z.ltb_spec d' base); [| discriminate].
  intros Hsome. inversion Hsome. subst.
  pose proof (digit_of_char_nonneg c d Hd). lia.
Qed.

Lemma decode_loop_bounds (base : Z) (l : list ascii) :
  2 <= base <= 36 ->
  forall result v,
    0 <= result ->
    decode_loop base l result = Normal v ->
    result * base ^ Z.of_nat (List.length l) <= v
    < (result + 1) * base ^ Z.of_nat (List.length l).
Proof.
  intros Hb. induction l as [| c l IH]; intros result v Hr Hv.
  - cbn in *. inversion Hv. lia.
  - cbn [decode_loop] in Hv. unfold decode_body in Hv.
    destruct (parseInt_char c (parseInt_number base)) as [d |] eqn:Hd;
      cbn [BigInt_of_number bind] in Hv; [| discriminate].
    pose proof (parseInt_char_range base c d Hb Hd) as Hrange.
    assert (H0 : 0 <= result * base + d) by nia.
    specialize (IH _ _ H0 Hv).
    cbn [List.length]. rewrite Nat2Z.inj_succ, Z.pow_succ_r by lia.
    assert (Hp : 0 < base ^ Z.of_nat (List.length l))
      by (apply Z.pow_pos_nonneg; lia).
    nia.
Qed.

(** Every character fits the base, or one of them does not. *)
Lemma digits_fit_or_not (base : Z) (chars : list ascii) :
  (exists ds,
     Forall2 (fun c d => spec_digit_value c = Some d /\ d < base) chars ds)
  \/ Exists (invalid_digit base) chars.
Proof.
  induction chars as [| c chars [(ds & Hds) | Hbad]].
  - left. exists []. constructor.
  - destruct (spec_digit_value c) as [d |] eqn:Hd.
    + destruct (Z.lt_ge_cases d base) as [Hlt | Hge].
      * left. exists (d :: ds). constructor; [split |]; assumption.
      * right. apply Exists_cons_hd. intros d' Hd'.
        rewrite Hd in Hd'. inversion Hd'. subst. exact Hge.
    + right. apply Exists_cons_hd. intros d' Hd'.
      rewrite Hd in Hd'. discriminate.
  - right. apply Exists_cons_tl. exact Hbad.
Qed.

End DecoderMore.

(** X1.  Decoding composes over concatenation, for any base: when both
    parts decode, the whole decodes to the first value shifted by the
    length of the second part, plus the second value. *)
Theorem decodeValue_append (base : Z) (s1 s2 : string) (v1 v2 : Z) :
  decodeValue base s1 = Normal v1 ->
  decodeValue base s2 = Normal v2 ->
  decodeValue base (s1 ++ s2)
  = Normal (v1 * base ^ Z.of_nat (String.length s2) + v2).
Proof.
  unfold decodeValue, toLowerCase. intros H1 H2.
  rewrite list_ascii_of_string_app, map_app, decode_loop_app, H1.
  cbn [bind]. rewrite (decode_loop_shift _ _ _ _ H2 v1).
  fold (toLowerCase s2). rewrite toLowerCase_length. f_equal. ring.
Qed.

Lemma decodeValue_append_witness :
  decodeValue 16 ("1f" ++ "0a")
  = Normal (31 * 16 ^ Z.of_nat (String.length "0a") + 10).
Proof.
  apply (decodeValue_append 16 "1f" "0a" 31 10); vm_compute; reflexivity.
Defined.

(** X2.  For a base from 2 to 36, a decoded value is not negative and is
    below the base to the number of characters. *)
Theorem decodeValue_bounds (base : Z) (s : string) (v : Z) :
  2 <= base <= 36 ->
  decodeValue base s = Normal v ->
  0 <= v < base ^ Z.of_nat (String.length s).
Proof.
  intros Hb Hv. unfold decodeValue in Hv.
  pose proof (decode_loop_bounds base _ Hb 0 v (Z.le_refl 0) Hv) as H.
  rewrite toLowerCase_length in H. lia.
Qed.

Lemma decodeValue_bounds_witness :
  0 <= 255 < 16 ^ Z.of_nat (String.length "ff").
Proof.
  apply (decodeValue_bounds 16 "ff" 255).
  - lia.
  - vm_compute. reflexivity.
Defined.

(** X4.  For a base from 2 to 36, a leading zero changes nothing: the
    outcome, value or exception, is that of the rest of the string. *)
Theorem decodeValue_leading_zero (base : Z) (s : string) :
  2 <= base <= 36 ->
  decodeValue base (String "0" s) = decodeValue base s.
Proof.
  intros Hb. unfold decodeValue, toLowerCase.
  cbn [list_ascii_of_string map decode_loop]. unfold decode_body.
  rewrite (parseInt_char_valid base Hb "0" 0)
    by (try lia; vm_compute; reflexivity).
  reflexivity.
Qed.

Lemma decodeValue_leading_zero_witness :
  decodeValue 10 (String "0" "42") = decodeValue 10 "42".
Proof.
  apply (decodeValue_leading_zero 10 "42"). lia.
Defined.

(** X5.  With a base of 1, a negative base or a base above 36 (within the
    32-bit range) [parseInt] has no valid radix, and every digit string
    that is not empty makes [decodeValue] throw the [RangeError] of
    [BigInt(NaN)]. *)
Theorem decodeValue_unsupported_base (base : Z) (c : ascii) (s : string) :
  - 2 ^ 31 <= base < 2 ^ 31 ->
  base < 0 \/ base = 1 \/ 36 < base ->
  decodeValue base (String c s) = Throw RangeError_NotAnInteger.
Proof.
  intros Hr Hb. unfold decodeValue, toLowerCase.
  cbn [list_ascii_of_string map decode_loop]. unfold decode_body.
  assert (E : parseInt_char (toLowerCase_char c) (parseInt_number base)
              = None).
  { unfold parseInt_char, parseInt_number, ToInt32.
    change (2 ^ 31) with 2147483648 in *.
    change (2 ^ 32) with 4294967296.
    assert (Hm : (if 2147483648 <=? base mod 4294967296
                  then base mod 4294967296 - 4294967296
                  else base mod 4294967296) = base).
    { destruct (Z.lt_ge_cases base 0).
      - replace (base mod 4294967296) with (base + 4294967296).
        + destruct (Z.leb_spec 2147483648 (base + 4294967296)); lia.
        + apply Z.mod_unique with (q := -1); lia.
      - rewrite Z.mod_small by lia.
        destruct (Z.leb_spec 2147483648 base); lia. }
    rewrite Hm.
    destruct (Z.eqb_spec base 0); [lia |].
    destruct (Z.ltb_spec base 2); [reflexivity |].
    destruct (Z.ltb_spec 36 base); [reflexivity | lia]. }
  rewrite E. reflexivity.
Qed.

Lemma decodeValue_unsupported_base_witness :
  decodeValue 37 (String "1" "0") = Throw RangeError_NotAnInteger.
Proof.
  apply (decodeValue_unsupported_base 37 "1" "0").
  - change (2 ^ 31) with 2147483648. lia.
  - right. right. lia.
Defined.

(** ** More on the rational helpers *)

Section FractionsMore.

Import Frac.

(** A normalized fraction is left as it is. *)
Lemma simplify_keeps_normalized (f : frac) :
  normalized f -> simplify (fst f) (snd f) = Normal f.
Proof.
  intros Hn. pose proof (normalized_nonzero f Hn) as Hnz.
  rewrite simplify_reduce by exact Hnz. f_equal.
  apply normalized_unique.
  - apply reduce_normalized, Hnz.
  - exact Hn.
  - apply reduce_cross, Hnz.
Qed.

Lemma quot_by_abs (z : Z) : z <> 0 -> Z.quot z (Z.abs z) = Z.sgn z.
Proof.
  intros Hz. destruct (Z.lt_ge_cases z 0) as [Hneg | Hpos].
  - rewrite Z.abs_neq, Z.sgn_neg by lia.
    rewrite Z.quot_opp_r, Z.quot_same by lia. reflexivity.
  - rewrite Z.abs_eq, Z.sgn_pos by lia. apply Z.quot_same. lia.
Qed.

End FractionsMore.

(** X6.  [gcd] returns the greatest common divisor: it is not negative, it
    divides both arguments, and every common divisor divides it. *)
Theorem gcd_greatest_common_divisor (a b : Z) :
  0 <= Frac.gcd a b /\
  (Frac.gcd a b | a) /\ (Frac.gcd a b | b) /\
  (forall c, (c | a) -> (c | b) -> (c | Frac.gcd a b)).
Proof.
  rewrite gcd_spec. repeat split.
  - apply Z.gcd_nonneg.
  - apply Z.gcd_divide_l.
  - apply Z.gcd_divide_r.
  - intros c. apply Z.gcd_greatest.
Qed.

(** X7.  With a nonzero denominator [simplify] keeps the value of the
    fraction: the pair it returns is proportional to its arguments. *)
Theorem simplify_same_value (num den n d : Z) :
  den <> 0 ->
  Frac.simplify num den = Normal (n, d) ->
  n * den = num * d.
Proof.
  intros Hden H. rewrite simplify_reduce in H by exact Hden.
  assert (E : reduce num den = (n, d)) by congruence.
  pose proof (reduce_cross num den Hden) as Hx.
  rewrite E in Hx. exact Hx.
Qed.

Lemma simplify_same_value_witness : 3 * -4 = -6 * 2.
Proof.
  apply (simplify_same_value (-6) (-4) 3 2).
  - lia.
  - vm_compute. reflexivity.
Defined.

(** X8.  [simplify] is the identity on normalized fractions, so
    simplifying twice is simplifying once. *)
Theorem simplify_idempotent (num den : Z) (f : Frac.frac) :
  Frac.simplify num den = Normal f ->
  den <> 0 ->
  Frac.simplify (fst f) (snd f) = Normal f.
Proof.
  intros H Hden. apply simplify_keeps_normalized.
  rewrite simplify_reduce in H by exact Hden.
  assert (E : reduce num den = f) by congruence.
  rewrite <- E. apply reduce_normalized, Hden.
Qed.

Lemma simplify_idempotent_witness :
  Frac.simplify (fst (3, 2)) (snd (3, 2)) = Normal (3, 2).
Proof.
  apply (simplify_idempotent (-6) (-4) (3, 2)).
  - vm_compute. reflexivity.
  - lia.
Defined.

(** X9.  On a zero denominator [simplify] throws the division by zero when
    the numerator is zero too, and otherwise returns the sign of the
    numerator over zero. *)
Theorem simplify_zero_denominator (num : Z) :
  Frac.simplify num 0
  = if num =? 0 then Throw RangeError_DivisionByZero
    else Normal (Z.sgn num, 0).
Proof.
  destruct (Z.eqb_spec num 0) as [-> | Hnz]; [reflexivity |].
  unfold Frac.simplify. change (0 <? 0) with false. cbv iota beta.
  rewrite gcd_spec.
  replace (Z.gcd (if num <? 0 then - num else num) 0) with (Z.abs num).
  - rewrite !bigint_div_nonzero by lia. cbn [bind].
    rewrite quot_by_abs by exact Hnz. reflexivity.
  - rewrite Z.gcd_0_r. destruct (Z.ltb_spec num 0); lia.
Qed.

(** X10.  [addFrac] adds exactly: from nonzero denominators it returns a
    fraction whose value is the sum of the two values. *)
Theorem addFrac_exact (f1 f2 : Frac.frac) :
  snd f1 <> 0 -> snd f2 <> 0 ->
  exists f, Frac.addFrac f1 f2 = Normal f /\ (toQ f == toQ f1 + toQ f2)%Q.
Proof.
  intros H1 H2.
  destruct (addFrac_value f1 f2 H1 H2) as (f & Hf & _ & Hq). eauto.
Qed.

Lemma addFrac_exact_witness :
  exists f, Frac.addFrac (1, 2) (1, -3) = Normal f /\
            (toQ f == toQ (1, 2)%Z + toQ (1, -3)%Z)%Q.
Proof.
  apply (addFrac_exact (1, 2) (1, -3)); cbn; lia.
Defined.

(** X11.  [mulFrac] multiplies exactly: from nonzero denominators it
    returns a fraction whose value is the product of the two values. *)
Theorem mulFrac_exact (f1 f2 : Frac.frac) :
  snd f1 <> 0 -> snd f2 <> 0 ->
  exists f, Frac.mulFrac f1 f2 = Normal f /\ (toQ f == toQ f1 * toQ f2)%Q.
Proof.
  intros H1 H2.
  destruct (mulFrac_value f1 f2 H1 H2) as (f & Hf & _ & Hq). eauto.
Qed.

Lemma mulFrac_exact_witness :
  exists f, Frac.mulFrac (2, 3) (3, -4) = Normal f /\
            (toQ f == toQ (2, 3)%Z * toQ (3, -4)%Z)%Q.
Proof.
  apply (mulFrac_exact (2, 3) (3, -4)); cbn; lia.
Defined.

(** X12.  [addFrac] and [mulFrac] do not depend on the order of their
    arguments, whether they return or throw. *)
Theorem addFrac_mulFrac_commutative (f1 f2 : Frac.frac) :
  Frac.addFrac f1 f2 = Frac.addFrac f2 f1 /\
  Frac.mulFrac f1 f2 = Frac.mulFrac f2 f1.
Proof.
  destruct f1 as [n1 d1], f2 as [n2 d2]. unfold Frac.addFrac, Frac.mulFrac.
  split; f_equal; ring.
Qed.

(** X13.  From nonzero denominators, adding three fractions gives the same
    fraction whichever two are added first. *)
Theorem addFrac_associative (f1 f2 f3 : Frac.frac) :
  snd f1 <> 0 -> snd f2 <> 0 -> snd f3 <> 0 ->
  (s <- Frac.addFrac f1 f2 ;; Frac.addFrac s f3)
  = (s <- Frac.addFrac f2 f3 ;; Frac.addFrac f1 s).
Proof.
  intros H1 H2 H3.
  destruct (addFrac_value f1 f2 H1 H2) as (s12 & E12 & N12 & Q12).
  destruct (addFrac_value f2 f3 H2 H3) as (s23 & E23 & N23 & Q23).
  destruct (addFrac_value s12 f3 (normalized_nonzero _ N12) H3)
    as (l & El & Nl & Ql).
  destruct (addFrac_value f1 s23 H1 (normalized_nonzero _ N23))
    as (r & Er & Nr & Qr).
  rewrite E12, E23. cbn [bind]. rewrite El, Er. f_equal.
  apply toQ_unique; try assumption.
  rewrite Ql, Qr, Q12, Q23. ring.
Qed.

Lemma addFrac_associative_witness :
  (s <- Frac.addFrac (1, 2) (1, 3) ;; Frac.addFrac s (1, 6))
  = (s <- Frac.addFrac (1, 3) (1, 6) ;; Frac.addFrac (1, 2) s).
Proof.
  apply (addFrac_associative (1, 2) (1, 3) (1, 6)); cbn; lia.
Defined.

(** X14.  Zero over one is neutral for [addFrac] and one over one for
    [mulFrac]: a normalized fraction comes back unchanged. *)
Theorem addFrac_mulFrac_neutral (f : Frac.frac) :
  normalized f ->
  Frac.addFrac (0, 1) f = Normal f /\ Frac.mulFrac (1, 1) f = Normal f.
Proof.
  intros Hn. pose proof (simplify_keeps_normalized f Hn) as H.
  destruct f as [n d]. unfold Frac.addFrac, Frac.mulFrac.
  cbn [fst snd] in H.
  replace (0 * d + n * 1) with n by ring.
  replace (1 * d) with d by ring.
  replace (1 * n) with n by ring.
  split; exact H.
Qed.

Lemma addFrac_mulFrac_neutral_witness :
  Frac.addFrac (0, 1) (-3, 4) = Normal (-3, 4) /\
  Frac.mulFrac (1, 1) (-3, 4) = Normal (-3, 4).
Proof.
  apply (addFrac_mulFrac_neutral (-3, 4)).
  unfold normalized. cbn. repeat split; lia.
Defined.

(** ** More on the evaluator *)

(** X15.  A single share is its own secret: for every point the evaluator
    returns its [y], and warns of nothing. *)
Theorem lagrange_single_share (p : point) :
  lagrangeInterpolationAtZero [p] = ([], Normal (y p)).
Proof.
  assert (Hy : normalized (y p, 1)).
  { unfold normalized. cbn [fst snd]. rewrite Z.gcd_1_r.
    repeat split; lia. }
  pose proof (simplify_keeps_normalized _ Hy) as Hs. cbn [fst snd] in Hs.
  unfold lagrangeInterpolationAtZero, accumulate.
  cbn [List.length seq for_each]. unfold term_body.
  change (basis [p] 0) with (1, 1).
  assert (H11 : Frac.simplify 1 1 = Normal (1, 1))
    by (vm_compute; reflexivity).
  cbn [at_index nth]. rewrite H11. cbn [bind].
  unfold Frac.mulFrac, Frac.addFrac.
  replace (y p * 1) with (y p) by ring. change (1 * 1) with 1.
  rewrite Hs. cbn [bind].
  replace (0 * 1 + y p * 1) with (y p) by ring. change (1 * 1) with 1.
  rewrite Hs. cbn [bind]. unfold finish. cbn [fst snd].
  rewrite bigint_div_nonzero by lia. rewrite Z.quot_1_r. reflexivity.
Qed.

(** ** Polynomial functions over the rationals *)

Section Polynomials.

Lemma poly_below_ext (n : nat) (f g : Q -> Q) :
  (forall t, (f t == g t)%Q) -> poly_below n f -> poly_below n g.
Proof.
  intros Hfg. destruct n as [| n]; cbn [poly_below].
  - intros Hf t. rewrite <- Hfg. apply Hf.
  - intros (c & h & Hh & Hf). exists c, h. split; [exact Hh |].
    intros t. rewrite <- Hfg. apply Hf.
Qed.

Lemma poly_below_S (n : nat) :
  forall f, poly_below n f -> poly_below (S n) f.
Proof.
  induction n as [| n IH]; intros f Hf.
  - exists 0%Q, (fun _ => 0%Q). split.
    + intros t. reflexivity.
    + intros t. rewrite (Hf t). ring.
  - destruct Hf as (c & g & Hg & Hf).
    exists c, g. split; [apply IH, Hg | exact Hf].
Qed.

Lemma poly_below_le (n m : nat) (f : Q -> Q) :
  (n <= m)%nat -> poly_below n f -> poly_below m f.
Proof.
  induction 1 as [| m _ IH]; intros Hf; [exact Hf |].
  apply poly_below_S, IH, Hf.
Qed.

Lemma poly_below_zero (n : nat) : poly_below n (fun _ => 0%Q).
Proof.
  apply (poly_below_le 0 n); [lia |]. intros t. reflexivity.
Qed.

Lemma poly_below_const (n : nat) (c : Q) : poly_below (S n) (fun _ => c).
Proof.
  apply (poly_below_le 1 (S n)); [lia |].
  exists c, (fun _ => 0%Q). split.
  - intros t. reflexivity.
  - intros t. ring.
Qed.

Lemma poly_below_add (n : nat) :
  forall f g,
    poly_below n f -> poly_below n g ->
    poly_below n (fun t => (f t + g t)%Q).
Proof.
  induction n as [| n IH]; intros f g Hf Hg.
  - intros t. rewrite (Hf t), (Hg t). ring.
  - destruct Hf as (c & f' & Hf' & Hf), Hg as (d & g' & Hg' & Hg).
    exists (c + d)%Q, (fun t => (f' t + g' t)%Q). split.
    + apply IH; assumption.
    + intros t. rewrite (Hf t), (Hg t). ring.
Qed.

Lemma poly_below_scale (n : nat) (k : Q) :
  forall f, poly_below n f -> poly_below n (fun t => (k * f t)%Q).
Proof.
  induction n as [| n IH]; intros f Hf.
  - intros t. rewrite (Hf t). ring.
  - destruct Hf as (c & f' & Hf' & Hf).
    exists (k * c)%Q, (fun t => (k * f' t)%Q). split.
    + apply IH, Hf'.
    + intros t. rewrite (Hf t). ring.
Qed.

(** A linear factor raises the degree by one. *)
Lemma poly_below_linear_factor (n : nat) (a : Q) :
  forall f, poly_below n f -> poly_below (S n) (fun t => ((t - a) * f t)%Q).
Proof.
  induction n as [| n IH]; intros f Hf.
  - exists 0%Q, (fun _ => 0%Q). split.
    + intros t. reflexivity.
    + intros t. rewrite (Hf t). ring.
  - destruct Hf as (c & g & Hg & Hf).
    exists (- a * c)%Q, (fun t => (c + (t - a) * g t)%Q). split.
    + apply poly_below_add; [apply poly_below_const | apply IH, Hg].
    + intros t. rewrite (Hf t). ring.
Qed.

Lemma poly_below_product (roots : list Q) :
  poly_below (S (List.length roots))
             (fun t => prodQ (map (fun a => (t - a)%Q) roots)).
Proof.
  induction roots as [| a roots IH].
  - exact (poly_below_const 0 1%Q).
  - exact (poly_below_linear_factor _ a _ IH).
Qed.

Lemma poly_below_sum {A : Type} (n : nat) (F : A -> Q -> Q) (l : list A) :
  (forall a, In a l -> poly_below n (F a)) ->
  poly_below n (fun t => sumQ (map (fun a => F a t) l)).
Proof.
  induction l as [| a l IH]; intros HF.
  - apply poly_below_zero.
  - cbn [map]. apply (poly_below_ext n
      (fun t => (F a t + sumQ (map (fun a => F a t) l))%Q)).
    + intros t. reflexivity.
    + apply poly_below_add.
      * apply HF. left. reflexivity.
      * apply IH. intros b Hb. apply HF. right. exact Hb.
Qed.

Lemma poly_below_evalQ (coeffs : list Z) :
  poly_below (List.length coeffs) (evalQ coeffs).
Proof.
  induction coeffs as [| c rest IH].
  - intros t. reflexivity.
  - exists (inject_Z c), (evalQ rest). split; [exact IH |].
    intros t. reflexivity.
Qed.

Lemma evalQ_inject (coeffs : list Z) (t : Z) :
  (evalQ coeffs (inject_Z t) == inject_Z (eval_poly coeffs t))%Q.
Proof.
  induction coeffs as [| c rest IH]; [reflexivity |].
  cbn [evalQ eval_poly]. rewrite IH, inject_Z_plus, inject_Z_mult.
  reflexivity.
Qed.

(** The factor theorem. *)
Lemma poly_factor (n : nat) :
  forall f a,
    poly_below (S n) f ->
    exists g, poly_below n g /\
              forall t, (f t == f a + (t - a) * g t)%Q.
Proof.
  induction n as [| n IH]; intros f a (c & g0 & Hg0 & Hf).
  - exists (fun _ => 0%Q). split.
    + intros t. reflexivity.
    + intros t. rewrite (Hf t), (Hf a), (Hg0 t), (Hg0 a). ring.
  - destruct (IH g0 a Hg0) as (h & Hh & Hg).
    exists (fun t => (g0 a + t * h t)%Q). split.
    + exists (g0 a), h. split; [exact Hh |]. intros t. reflexivity.
    + intros t. rewrite (Hf t), (Hf a), (Hg t). ring.
Qed.

(** A polynomial function of degree below [n] with [n] distinct integer
    roots is zero everywhere. *)
Lemma poly_roots (n : nat) :
  forall f (roots : list Z),
    NoDup roots -> List.length roots = n ->
    poly_below n f ->
    (forall r, In r roots -> (f (inject_Z r) == 0)%Q) ->
    forall t, (f t == 0)%Q.
Proof.
  induction n as [| n IH]; intros f roots Hnd Hlen Hf Hroots.
  - exact Hf.
  - destruct roots as [| a rs]; [discriminate |].
    inversion Hnd as [| a' rs' Hout Hnd']. subst.
    destruct (poly_factor n f (inject_Z a) Hf) as (g & Hg & Hfa).
    assert (Hzero : forall t, (g t == 0)%Q).
    { apply (IH g rs); try assumption.
      - cbn in Hlen. lia.
      - intros r Hr.
        pose proof (Hfa (inject_Z r)) as E.
        rewrite (Hroots r (or_intror Hr)),
                (Hroots a (or_introl eq_refl)) in E.
        rewrite Qplus_0_l in E. symmetry in E.
        apply Qmult_integral in E. destruct E as [E | E]; [| exact E].
        exfalso.
        assert (Hne : r <> a) by (intros ->; contradiction).
        apply Hne. apply inject_Z_injective.
        apply Qplus_inj_r with (z := (- inject_Z a)%Q).
        rewrite Qplus_opp_r. exact E. }
    intros t. rewrite (Hfa t), (Hroots a (or_introl eq_refl)), (Hzero t).
    ring.
Qed.

End Polynomials.

(** ** The interpolant of shares of a polynomial *)

Section Interpolation.

Lemma sumQ_map_ext {A : Type} (F G : A -> Q) (l : list A) :
  (forall a, In a l -> (F a == G a)%Q) ->
  (sumQ (map F l) == sumQ (map G l))%Q.
Proof.
  induction l as [| a l IH]; intros H; [reflexivity |].
  cbn [map]. rewrite !sumQ_cons.
  rewrite (H a (or_introl eq_refl)), IH; [reflexivity |].
  intros b Hb. apply H. right. exact Hb.
Qed.

Lemma sumQ_map_zero {A : Type} (F : A -> Q) (l : list A) :
  (forall a, In a l -> (F a == 0)%Q) -> (sumQ (map F l) == 0)%Q.
Proof.
  induction l as [| a l IH]; intros H; [reflexivity |].
  cbn [map]. rewrite sumQ_cons, (H a (or_introl eq_refl)), IH.
  - ring.
  - intros b Hb. apply H. right. exact Hb.
Qed.

Lemma prodQ_cons (a : Q) (l : list Q) : prodQ (a :: l) = (a * prodQ l)%Q.
Proof. reflexivity. Qed.

Lemma prodQ_inject (g : point -> Z) (t : Z) (l : list point) :
  (prodQ (map (fun q => inject_Z t - inject_Z (g q)) l)
   == inject_Z (product (map (fun q => (t - g q)%Z) l)))%Q.
Proof.
  induction l as [| q l IH]; [reflexivity |].
  cbn [map]. rewrite prodQ_cons, IH.
  change (product ((t - g q) :: map (fun q => t - g q) l))
    with ((t - g q) * product (map (fun q => t - g q) l)).
  rewrite inject_Z_mult. unfold Z.sub.
  rewrite inject_Z_plus, inject_Z_opp. reflexivity.
Qed.

Lemma prodQ_zero_factor (F : point -> Q) (l : list point) (m : point) :
  In m l -> (F m == 0)%Q -> (prodQ (map F l) == 0)%Q.
Proof.
  intros Hin Hm. induction l as [| q l IH]; [destruct Hin |].
  cbn [map]. rewrite prodQ_cons.
  destruct Hin as [-> | Hin].
  - rewrite Hm. ring.
  - rewrite (IH Hin). ring.
Qed.

Lemma filter_length_le {A : Type} (f : A -> bool) (l : list A) :
  (List.length (filter f l) <= List.length l)%nat.
Proof.
  induction l as [| a l IH]; [apply le_n |].
  cbn [filter]. destruct (f a); cbn [List.length]; lia.
Qed.

Lemma others_shorter (p : point) (points : list point) :
  In p points ->
  (S (List.length (others p points)) <= List.length points)%nat.
Proof.
  unfold others. induction points as [| a l IH]; intros Hin.
  - destruct Hin.
  - cbn [filter List.length]. destruct Hin as [-> | Hin].
    + rewrite Z.eqb_refl. cbn [negb].
      pose proof (filter_length_le (fun q => negb (x q =? x p)) l). lia.
    + specialize (IH Hin).
      destruct (negb (x a =? x p)); cbn [List.length]; lia.
Qed.

Lemma same_x_same_point (points : list point) (p m : point) :
  NoDup (map x points) -> In p points -> In m points ->
  x p = x m -> p = m.
Proof.
  induction points as [| a l IH]; intros Hnd Hp Hm Hx; [destruct Hp |].
  cbn [map] in Hnd. inversion Hnd as [| a' l' Hout Hnd']. subst.
  destruct Hp as [-> | Hp], Hm as [-> | Hm].
  - reflexivity.
  - exfalso. apply Hout. rewrite Hx. apply in_map, Hm.
  - exfalso. apply Hout. rewrite <- Hx. apply in_map, Hp.
  - apply IH; assumption.
Qed.

(** A sum whose terms vanish except at one share. *)
Lemma sumQ_single (G : point -> Q) (l : list point) (m : point) :
  NoDup (map x l) -> In m l ->
  (forall p, In p l -> x p <> x m -> (G p == 0)%Q) ->
  (sumQ (map G l) == G m)%Q.
Proof.
  induction l as [| a l IH]; intros Hnd Hm Hz; [destruct Hm |].
  cbn [map] in *. inversion Hnd as [| a' l' Hout Hnd']. subst.
  rewrite sumQ_cons.
  destruct (Z.eq_dec (x a) (x m)) as [E | Hne].
  - assert (Ha : a = m).
    { destruct Hm as [Ha | Hm]; [exact Ha |].
      exfalso. apply Hout. rewrite E. apply in_map, Hm. }
    subst a. rewrite sumQ_map_zero; [ring |].
    intros p Hp. apply Hz; [right; exact Hp |].
    intros Hx. apply Hout. rewrite <- Hx. apply in_map, Hp.
  - destruct Hm as [Ha | Hm]; [congruence |].
    rewrite (Hz a (or_introl eq_refl) Hne), IH; try assumption; [ring |].
    intros p Hp. apply Hz. right. exact Hp.
Qed.

Lemma lagrange_at_below (points : list point) :
  poly_below (List.length points) (lagrange_at points).
Proof.
  unfold lagrange_at.
  apply (poly_below_sum (List.length points)
           (fun p t =>
              (inject_Z (y p)
               * (prodQ (map (fun q => t - inject_Z (x q)) (others p points))
                  / inject_Z (basis_den p points)))%Q)).
  intros p Hp.
  apply (poly_below_ext _
           (fun t =>
              (inject_Z (y p) / inject_Z (basis_den p points)
               * prodQ (map (fun a => t - a)
                            (map (fun q => inject_Z (x q))
                                 (others p points))))%Q)).
  - intros t. rewrite map_map. unfold Qdiv. ring.
  - apply poly_below_scale.
    eapply poly_below_le; [| apply poly_below_product].
    rewrite length_map. apply others_shorter, Hp.
Qed.

(** The interpolant passes through every share. *)
Lemma lagrange_at_share (points : list point) (m : point) :
  NoDup (map x points) -> In m points ->
  (lagrange_at points (inject_Z (x m)) == inject_Z (y m))%Q.
Proof.
  intros Hnd Hm. unfold lagrange_at.
  rewrite (sumQ_single _ points m Hnd Hm).
  - rewrite (prodQ_inject x (x m) (others m points)).
    fold (basis_den m points).
    field. apply inject_Z_nonzero, basis_den_nonzero.
  - intros p Hp Hx.
    rewrite (prodQ_zero_factor _ (others p points) m).
    + unfold Qdiv. ring.
    + unfold others. apply filter_In. split; [exact Hm |].
      destruct (Z.eqb_spec (x m) (x p)); [congruence | reflexivity].
    + ring.
Qed.

Lemma lagrange_at_zero (points : list point) :
  (lagrange_at points 0 == lagrangeQ points)%Q.
Proof.
  unfold lagrange_at, lagrangeQ. apply sumQ_map_ext. intros p _.
  unfold termQ, basis_num.
  change 0%Q with (inject_Z 0).
  rewrite (prodQ_inject x 0 (others p points)). reflexivity.
Qed.

(** Lagrange's formula at zero, on shares of a polynomial of degree below
    their number, is the constant term. *)
Lemma lagrangeQ_polynomial (coeffs : list Z) (points : list point) :
  NoDup (map x points) ->
  (List.length coeffs <= List.length points)%nat ->
  (forall p, In p points -> y p = eval_poly coeffs (x p)) ->
  (lagrangeQ points == inject_Z (eval_poly coeffs 0))%Q.
Proof.
  intros Hnd Hlen Hy.
  assert (Hzero : forall t,
             (lagrange_at points t + (- (1)) * evalQ coeffs t == 0)%Q).
  { apply (poly_roots (List.length points) _ (map x points) Hnd).
    - apply length_map.
    - apply poly_below_add; [apply lagrange_at_below |].
      apply poly_below_scale.
      apply (poly_below_le _ _ _ Hlen), poly_below_evalQ.
    - intros r Hr. apply in_map_iff in Hr. destruct Hr as (m & <- & Hm).
      rewrite (lagrange_at_share points m Hnd Hm), evalQ_inject, (Hy m Hm).
      ring. }
  rewrite <- lagrange_at_zero.
  rewrite <- (evalQ_inject coeffs 0).
  change (inject_Z 0) with 0%Q.
  specialize (Hzero 0%Q).
  apply Qplus_inj_r with (z := (- (1) * evalQ coeffs 0)%Q).
  rewrite Hzero. ring.
Qed.

Lemma finish_integer (z : Z) : finish (z, 1) = ([], Normal z).
Proof.
  unfold finish. cbn [fst snd]. rewrite bigint_div_nonzero by lia.
  rewrite Z.quot_1_r. reflexivity.
Qed.

Lemma accumulate_integral (points : list point) (z : Z) :
  NoDup (map x points) ->
  (lagrangeQ points == inject_Z z)%Q ->
  accumulate points = Normal (z, 1).
Proof.
  intros Hnd Hq.
  destruct (accumulate_value points Hnd) as (f & Hf & Nf & Qf).
  rewrite Hf. f_equal. apply toQ_unique; [exact Nf | |].
  - unfold normalized. cbn [fst snd]. rewrite Z.gcd_1_r.
    repeat split; lia.
  - rewrite Qf, Hq. unfold toQ. cbn [fst snd]. field.
Qed.

End Interpolation.

(** ** Outcomes of the evaluator *)

Section Outcomes.

Lemma accumulate_duplicate (points : list point) :
  ~ NoDup (map x points) ->
  accumulate points = Throw RangeError_DivisionByZero.
Proof.
  intros Hdup.
  destruct (repeated_x_indices points Hdup) as (i & j & Hi & Hj & Hne & Hx).
  unfold accumulate. apply (for_each_two_zeros points i j); try assumption.
  - apply (basis_zero points i j); auto.
  - apply (basis_zero points j i); auto.
  - apply in_seq. lia.
  - apply in_seq. lia.
Qed.

Lemma accumulate_Permutation (points points' : list point) :
  Permutation points points' -> accumulate points' = accumulate points.
Proof.
  intros HP.
  destruct (NoDup_dec Z.eq_dec (map x points)) as [Hnd | Hdup].
  - assert (Hnd' : NoDup (map x points')).
    { eapply Permutation_NoDup; [| exact Hnd]. apply Permutation_map, HP. }
    destruct (accumulate_value points Hnd) as (f & Hf & Nf & Qf).
    destruct (accumulate_value points' Hnd') as (f' & Hf' & Nf' & Qf').
    rewrite Hf, Hf'. f_equal. apply toQ_unique; try assumption.
    rewrite Qf, Qf'. symmetry. apply lagrangeQ_Permutation, HP.
  - rewrite (accumulate_duplicate points Hdup).
    apply accumulate_duplicate. intros Hnd'. apply Hdup.
    eapply Permutation_NoDup; [| exact Hnd'].
    apply Permutation_map, Permutation_sym, HP.
Qed.

Lemma finish_normalized (f : Frac.frac) :
  normalized f ->
  finish f
  = (if snd f =? 1 then [] else [Warn_not_exact_integer],
     Normal (Z.quot (fst f) (snd f))).
Proof.
  intros Hn. pose proof Hn as (Hpos & _).
  unfold finish. rewrite bigint_div_nonzero by lia.
  destruct (Z.eqb_spec (snd f) 1); [reflexivity |].
  destruct (Z.eqb_spec (snd f) (-1)); [lia | reflexivity].
Qed.

(** The value of a normalized fraction is an integer exactly when its
    denominator is 1. *)
Lemma normalized_integer (f : Frac.frac) (z : Z) :
  normalized f -> (toQ f == inject_Z z)%Q -> f = (z, 1).
Proof.
  intros Nf Hq. apply toQ_unique; [exact Nf | |].
  - unfold normalized. cbn [fst snd]. rewrite Z.gcd_1_r.
    repeat split; lia.
  - rewrite Hq. unfold toQ. cbn [fst snd]. field.
Qed.

End Outcomes.

(** X16.  The evaluator reconstructs the secret: on shares with pairwise
    distinct [x] that lie on a polynomial with integer coefficients, of
    degree below the number of shares, it returns the value of the
    polynomial at zero and warns of nothing. *)
Theorem lagrange_reconstructs_polynomial
    (coeffs : list Z) (points : list point) :
  NoDup (map x points) ->
  (List.length coeffs <= List.length points)%nat ->
  (forall p, In p points -> y p = eval_poly coeffs (x p)) ->
  lagrangeInterpolationAtZero points = ([], Normal (eval_poly coeffs 0)).
Proof.
  intros Hnd Hlen Hy. unfold lagrangeInterpolationAtZero.
  rewrite (accumulate_integral points (eval_poly coeffs 0) Hnd).
  - apply finish_integer.
  - apply lagrangeQ_polynomial; assumption.
Qed.

Lemma lagrange_reconstructs_polynomial_witness :
  lagrangeInterpolationAtZero [mkPoint 1 4; mkPoint 2 8; mkPoint 3 14]
  = ([], Normal (eval_poly [2; 1; 1] 0)).
Proof.
  apply (lagrange_reconstructs_polynomial
           [2; 1; 1] [mkPoint 1 4; mkPoint 2 8; mkPoint 3 14]).
  - cbn. repeat constructor; cbn; lia.
  - cbn. lia.
  - intros p [<- | [<- | [<- | []]]]; reflexivity.
Defined.

(** X17.  With pairwise distinct [x] the evaluator computes Lagrange's
    formula at zero exactly: the final fraction is the normalized fraction
    of that value, the result is its numerator divided by its denominator
    toward zero, and the warning is printed when the denominator is not
    1. *)
Theorem lagrange_computes_formula (points : list point) :
  NoDup (map x points) ->
  exists f,
    normalized f /\ (toQ f == lagrangeQ points)%Q /\
    lagrangeInterpolationAtZero points
    = (if snd f =? 1 then [] else [Warn_not_exact_integer],
       Normal (Z.quot (fst f) (snd f))).
Proof.
  intros Hnd.
  destruct (accumulate_value points Hnd) as (f & Hf & Nf & Qf).
  exists f. repeat split; try apply Nf; [exact Qf |].
  unfold lagrangeInterpolationAtZero. rewrite Hf.
  apply finish_normalized, Nf.
Qed.

Lemma lagrange_computes_formula_witness :
  exists f,
    normalized f /\
    (toQ f == lagrangeQ [mkPoint 1 0; mkPoint 3 1])%Q /\
    lagrangeInterpolationAtZero [mkPoint 1 0; mkPoint 3 1]
    = (if snd f =? 1 then [] else [Warn_not_exact_integer],
       Normal (Z.quot (fst f) (snd f))).
Proof.
  apply (lagrange_computes_formula [mkPoint 1 0; mkPoint 3 1]).
  cbn. repeat constructor; cbn; lia.
Defined.

(** X18.  With pairwise distinct [x] the evaluator prints no warning
    exactly when the value of Lagrange's formula at zero is an integer,
    and then that integer is what it returns. *)
Theorem lagrange_silent_iff_integer (points : list point) :
  NoDup (map x points) ->
  (fst (lagrangeInterpolationAtZero points) = [] <->
   exists z, (lagrangeQ points == inject_Z z)%Q) /\
  (forall z, (lagrangeQ points == inject_Z z)%Q ->
             lagrangeInterpolationAtZero points = ([], Normal z)).
Proof.
  intros Hnd.
  destruct (accumulate_value points Hnd) as (f & Hf & Nf & Qf).
  assert (Hint : forall z, (lagrangeQ points == inject_Z z)%Q ->
                           lagrangeInterpolationAtZero points
                           = ([], Normal z)).
  { intros z Hz. unfold lagrangeInterpolationAtZero.
    rewrite (accumulate_integral points z Hnd Hz). apply finish_integer. }
  split; [split |]; [| | exact Hint].
  - unfold lagrangeInterpolationAtZero. rewrite Hf.
    rewrite (finish_normalized f Nf). cbn [fst].
    destruct (Z.eqb_spec (snd f) 1) as [E | _]; [| discriminate].
    intros _. exists (fst f). rewrite <- Qf. unfold toQ. rewrite E.
    field.
  - intros (z & Hz). rewrite (Hint z Hz). reflexivity.
Qed.

Lemma lagrange_silent_iff_integer_witness :
  (fst (lagrangeInterpolationAtZero [mkPoint 1 1; mkPoint 2 2]) = [] <->
   exists z, (lagrangeQ [mkPoint 1 1; mkPoint 2 2] == inject_Z z)%Q) /\
  (forall z, (lagrangeQ [mkPoint 1 1; mkPoint 2 2] == inject_Z z)%Q ->
             lagrangeInterpolationAtZero [mkPoint 1 1; mkPoint 2 2]
             = ([], Normal z)).
Proof.
  apply (lagrange_silent_iff_integer [mkPoint 1 1; mkPoint 2 2]).
  cbn. repeat constructor; cbn; lia.
Defined.

(** X19.  The evaluator throws exactly when two shares have the same
    [x]; with pairwise distinct [x] it always returns a value. *)
Theorem lagrange_throws_iff_duplicate (points : list point) :
  (exists e, snd (lagrangeInterpolationAtZero points) = Throw e) <->
  ~ NoDup (map x points).
Proof.
  split.
  - intros (e & He) Hnd.
    destruct (accumulate_value points Hnd) as (f & Hf & Nf & _).
    unfold lagrangeInterpolationAtZero in He. rewrite Hf in He.
    rewrite (finish_normalized f Nf) in He. discriminate.
  - intros Hdup. exists RangeError_DivisionByZero.
    unfold lagrangeInterpolationAtZero.
    rewrite (accumulate_duplicate points Hdup). reflexivity.
Qed.

(** X20.  The order of the shares never matters: on any permutation of
    any list of shares, with repeated [x] or not, the evaluator has the
    same outcome. *)
Theorem lagrange_order_irrelevant (points points' : list point) :
  Permutation points points' ->
  lagrangeInterpolationAtZero points' = lagrangeInterpolationAtZero points.
Proof.
  intros HP. unfold lagrangeInterpolationAtZero.
  rewrite (accumulate_Permutation points points' HP). reflexivity.
Qed.

Lemma lagrange_order_irrelevant_witness :
  lagrangeInterpolationAtZero [mkPoint 2 9; mkPoint 2 5]
  = lagrangeInterpolationAtZero [mkPoint 2 5; mkPoint 2 9].
Proof.
  apply (lagrange_order_irrelevant
           [mkPoint 2 5; mkPoint 2 9] [mkPoint 2 9; mkPoint 2 5]).
  apply perm_swap.
Defined.

(** ** The shares the caller selects *)

Section Selection.

Lemma selectedPoints_prefix (used rest : list point) :
  selectedPoints (used ++ rest) (Z.of_nat (List.length used)) = used.
Proof.
  unfold selectedPoints. rewrite length_app, Nat2Z.inj_add.
  destruct (Z.ltb_spec (Z.of_nat (List.length used)) 0); [lia |].
  rewrite Z.min_l by lia. rewrite Nat2Z.id.
  rewrite firstn_app, Nat.sub_diag, firstn_all. cbn [firstn].
  apply app_nil_r.
Qed.

End Selection.

(** X21.  Only the first [k] shares count: when they have pairwise
    distinct [x] and lie on a polynomial with integer coefficients of
    degree below [k], the secret computed from the selection is the value
    of the polynomial at zero, whatever shares follow. *)
Theorem extra_shares_ignored
    (coeffs : list Z) (used rest : list point) :
  NoDup (map x used) ->
  (List.length coeffs <= List.length used)%nat ->
  (forall p, In p used -> y p = eval_poly coeffs (x p)) ->
  lagrangeInterpolationAtZero
    (selectedPoints (used ++ rest) (Z.of_nat (List.length used)))
  = ([], Normal (eval_poly coeffs 0)).
Proof.
  intros Hnd Hlen Hy. rewrite selectedPoints_prefix.
  unfold lagrangeInterpolationAtZero.
  rewrite (accumulate_integral used (eval_poly coeffs 0) Hnd).
  - apply finish_integer.
  - apply lagrangeQ_polynomial; assumption.
Qed.

Lemma extra_shares_ignored_witness :
  lagrangeInterpolationAtZero
    (selectedPoints ([mkPoint 1 3; mkPoint 2 5] ++ [mkPoint 2 99])
                    (Z.of_nat (List.length [mkPoint 1 3; mkPoint 2 5])))
  = ([], Normal (eval_poly [1; 2] 0)).
Proof.
  apply (extra_shares_ignored [1; 2] [mkPoint 1 3; mkPoint 2 5]
                              [mkPoint 2 99]).
  - cbn. repeat constructor; cbn; lia.
  - cbn. lia.
  - intros p [<- | [<- | []]]; reflexivity.
Defined.

(** ** Digit strings with the same value *)

Section Injective.

Lemma lower_digit_char (c : ascii) (d : Z) :
  digit_of_char (toLowerCase_char c) = Some d ->
  toLowerCase_char c = char_of_digit d.
Proof.
  intros H.
  destruct c as [[] [] [] [] [] [] [] []]; vm_compute in H;
    try discriminate; injection H as <-; vm_compute; reflexivity.
Qed.

Lemma parseInt_char_digit (c : ascii) (radix d : Z) :
  parseInt_char c radix = Some d -> digit_of_char c = Some d.
Proof.
  unfold parseInt_char.
  destruct (if ToInt32 radix =? 0 then Some 10
            else if (ToInt32 radix <? 2) || (36 <? ToInt32 radix)
                 then None else Some (ToInt32 radix)) as [r |];
    [| discriminate].
  destruct (digit_of_char c) as [d' |]; [| discriminate].
  destruct (d' <? r); [| discriminate].
  intros H. exact H.
Qed.

Variable base : Z.
Hypothesis base_range : 2 <= base <= 36.

Lemma decode_loop_injective (l1 : list ascii) :
  forall l2 result v,
    List.length l1 = List.length l2 ->
    0 <= result ->
    decode_loop base (map toLowerCase_char l1) result = Normal v ->
    decode_loop base (map toLowerCase_char l2) result = Normal v ->
    map toLowerCase_char l1 = map toLowerCase_char l2.
Proof.
  induction l1 as [| c1 l1 IH]; intros [| c2 l2] result v Hlen Hr H1 H2;
    try discriminate; [reflexivity |].
  cbn [map decode_loop] in *. unfold decode_body in *.
  destruct (parseInt_char (toLowerCase_char c1) (parseInt_number base))
    as [d1 |] eqn:E1; cbn [BigInt_of_number bind] in H1; [| discriminate].
  destruct (parseInt_char (toLowerCase_char c2) (parseInt_number base))
    as [d2 |] eqn:E2; cbn [BigInt_of_number bind] in H2; [| discriminate].
  pose proof (parseInt_char_range base _ _ base_range E1) as R1.
  pose proof (parseInt_char_range base _ _ base_range E2) as R2.
  assert (Hlen' : List.length l1 = List.length l2)
    by (cbn in Hlen; lia).
  assert (P1 : 0 <= result * base + d1) by nia.
  assert (P2 : 0 <= result * base + d2) by nia.
  pose proof (decode_loop_bounds base _ base_range _ v P1 H1) as B1.
  pose proof (decode_loop_bounds base _ base_range _ v P2 H2) as B2.
  rewrite !length_map in B1, B2. rewrite <- Hlen' in B2.
  assert (Hp : 0 < base ^ Z.of_nat (List.length l1))
    by (apply Z.pow_pos_nonneg; lia).
  assert (Hd : d1 = d2) by nia.
  subst d2.
  apply parseInt_char_digit, lower_digit_char in E1.
  apply parseInt_char_digit, lower_digit_char in E2.
  rewrite E1, E2. f_equal.
  apply (IH l2 (result * base + d1) v); assumption.
Qed.

End Injective.

(** X22.  For a base from 2 to 36, two digit strings of the same length
    with the same decoded value are the same string up to the case of the
    letters. *)
Theorem decodeValue_injective (base : Z) (s1 s2 : string) (v : Z) :
  2 <= base <= 36 ->
  String.length s1 = String.length s2 ->
  decodeValue base s1 = Normal v ->
  decodeValue base s2 = Normal v ->
  toLowerCase s1 = toLowerCase s2.
Proof.
  intros Hb Hlen H1 H2. unfold decodeValue, toLowerCase in *.
  apply (decode_loop_injective base Hb _ _ 0 v); try assumption; [| lia].
  pose proof (toLowerCase_length s1) as L1.
  pose proof (toLowerCase_length s2) as L2.
  unfold toLowerCase in L1, L2. rewrite length_map in L1, L2. lia.
Qed.

Lemma decodeValue_injective_witness : toLowerCase "fF" = toLowerCase "Ff".
Proof.
  apply (decodeValue_injective 16 "fF" "Ff" 255).
  - lia.
  - reflexivity.
  - vm_compute. reflexivity.
  - vm_compute. reflexivity.
Defined.

(** ** The inner loop *)

Section Basis.

Lemma seq_add (a k len : nat) :
  seq (a + k) len = map (Nat.add a) (seq k len).
Proof.
  induction a as [| a IH].
  - cbn. symmetry. apply map_id.
  - cbn [Nat.add]. rewrite <- seq_shift, IH, map_map. reflexivity.
Qed.

Lemma fold_multiply_in (xi : Z) (l : list point) :
  forall s,
    fold_left (multiply_in xi) l s
    = (fst s * product (map (fun q => 0 - x q) l),
       snd s * product (map (fun q => xi - x q) l)).
Proof.
  induction l as [| q l IH]; intros [a b].
  - cbn. f_equal; lia.
  - cbn [fold_left]. rewrite IH. unfold multiply_in. cbn [fst snd map].
    change (product ((0 - x q) :: map (fun q => 0 - x q) l))
      with ((0 - x q) * product (map (fun q => 0 - x q) l)).
    change (product ((xi - x q) :: map (fun q => xi - x q) l))
      with ((xi - x q) * product (map (fun q => xi - x q) l)).
    f_equal; ring.
Qed.

Lemma product_app (l1 l2 : list Z) :
  product (l1 ++ l2) = product l1 * product l2.
Proof.
  induction l1 as [| a l1 IH]; cbn [app].
  - cbn. destruct (product l2); reflexivity.
  - change (product (a :: l1 ++ l2)) with (a * product (l1 ++ l2)).
    change (product (a :: l1)) with (a * product l1).
    rewrite IH. ring.
Qed.

End Basis.

(** X23.  For the share [p] at any index, the inner loop leaves in [num]
    the product of [0 - x] and in [den] the product of [x p - x] over all
    the other shares, those before it and those after it. *)
Theorem basis_products (before after : list point) (p : point) :
  basis (before ++ p :: after) (List.length before)
  = (product (map (fun q => 0 - x q) (before ++ after)),
     product (map (fun q => x p - x q) (before ++ after))).
Proof.
  assert (Hp : at_index (before ++ p :: after) (List.length before) = p).
  { unfold at_index. rewrite app_nth2, Nat.sub_diag by lia. reflexivity. }
  unfold basis. rewrite Hp, length_app. cbn [List.length].
  rewrite seq_app, fold_left_app. cbn [Nat.add seq fold_left].
  (* the shares before the index *)
  rewrite (fold_left_ext_in _
             (fun s j => multiply_in (x p) s (nth j before (mkPoint 0 0)))
             (seq 0 (List.length before))).
  2:{ intros s j Hj. apply in_seq in Hj. unfold basis_body.
      destruct (Nat.eqb_spec (List.length before) j); [lia |].
      unfold at_index. rewrite app_nth1 by lia. reflexivity. }
  rewrite <- (fold_left_over_map (multiply_in (x p))
                (fun j => nth j before (mkPoint 0 0))).
  rewrite map_seq_nth, fold_multiply_in. cbn [fst snd].
  (* the index itself is skipped *)
  unfold basis_body at 2. rewrite Nat.eqb_refl.
  (* the shares after the index *)
  replace (S (List.length before)) with (S (List.length before) + 0)%nat
    by lia.
  rewrite seq_add, fold_left_over_map.
  rewrite (fold_left_ext_in _
             (fun s j => multiply_in (x p) s (nth j after (mkPoint 0 0)))
             (seq 0 (List.length after))).
  2:{ intros s j Hj. unfold basis_body.
      match goal with
      | |- context [Nat.eqb ?a ?b] =>
          destruct (Nat.eqb_spec a b); [lia |]
      end.
      unfold at_index. rewrite app_nth2 by lia.
      match goal with
      | |- context [nth ?k (p :: after) _] => replace k with (S j) by lia
      end.
      reflexivity. }
  rewrite <- (fold_left_over_map (multiply_in (x p))
                (fun j => nth j after (mkPoint 0 0))).
  rewrite map_seq_nth, fold_multiply_in. cbn [fst snd].
  rewrite !map_app, !product_app. f_equal; ring.
Qed.

(** X24.  A share at [x = 0] is the secret itself: with pairwise distinct
    [x], when one of the shares has [x = 0] the evaluator returns its [y]
    and warns of nothing, whatever the other shares are. *)
Theorem share_at_zero_is_secret (points : list point) (m : point) :
  NoDup (map x points) -> In m points -> x m = 0 ->
  lagrangeInterpolationAtZero points = ([], Normal (y m)).
Proof.
  intros Hnd Hm Hx. unfold lagrangeInterpolationAtZero.
  rewrite (accumulate_integral points (y m) Hnd).
  - apply finish_integer.
  - rewrite <- lagrange_at_zero. change 0%Q with (inject_Z 0).
    rewrite <- Hx. apply lagrange_at_share; assumption.
Qed.

Lemma share_at_zero_is_secret_witness :
  lagrangeInterpolationAtZero [mkPoint 4 9; mkPoint 0 7; mkPoint (-2) 1]
  = ([], Normal (y (mkPoint 0 7))).
Proof.
  apply (share_at_zero_is_secret
           [mkPoint 4 9; mkPoint 0 7; mkPoint (-2) 1] (mkPoint 0 7)).
  - cbn. repeat constructor; cbn; lia.
  - right. left. reflexivity.
  - reflexivity.
Defined.

(** ** The decoder on every Number and every string *)

Section General.

Variable table : list N -> N -> list N -> list N.

Lemma parseInt_point_latin (a : ascii) (radix : Z) :
  parseInt_point (N_of_ascii a) radix = parseInt_char a radix.
Proof.
  unfold parseInt_point.
  destruct (N.ltb_spec (N_of_ascii a) 256) as [_ | H].
  - rewrite ascii_N_embedding. reflexivity.
  - pose proof (N_ascii_bounded a). lia.
Qed.

Lemma lower_from_latin (cs : list ascii) :
  forall before,
    lower_from table before (map N_of_ascii cs)
    = map N_of_ascii (map toLowerCase_char cs).
Proof.
  induction cs as [| a cs IH]; intros before; [reflexivity |].
  cbn [map lower_from]. unfold lower_point.
  destruct (N.ltb_spec (N_of_ascii a) 256) as [_ | H].
  - rewrite ascii_N_embedding, IH. reflexivity.
  - pose proof (N_ascii_bounded a). lia.
Qed.

Lemma decode_points_latin (base : Z) (l : list ascii) :
  forall result,
    decode_points base (parseInt_number base) (map N_of_ascii l) result
    = decode_loop base l result.
Proof.
  induction l as [| a l IH]; intros result; [reflexivity |].
  cbn [map decode_points decode_loop]. unfold decode_body.
  rewrite parseInt_point_latin.
  destruct (BigInt_of_number _) as [d | e]; cbn [bind];
    [apply IH | reflexivity].
Qed.

(** On an integral base and a string of code points below U+0100 the
    general decoder is [decodeValue]. *)
Lemma decodeValue_general_latin (base : Z) (s : string) :
  decodeValue_general table (Integral base) (points_of s)
  = decodeValue base s.
Proof.
  unfold decodeValue_general, toLowerCase_general, points_of, decodeValue,
    toLowerCase.
  rewrite lower_from_latin. apply decode_points_latin.
Qed.

Lemma decode_points_invalid (bigBase radix : Z) (chars : list N) :
  Exists (fun c => parseInt_point c radix = None) chars ->
  forall result,
    decode_points bigBase radix chars result = Throw RangeError_NotAnInteger.
Proof.
  induction 1 as [c chars Hbad | c chars _ IH]; intros result;
    cbn [decode_points].
  - rewrite Hbad. reflexivity.
  - destruct (parseInt_point c radix); cbn [BigInt_of_number bind];
      [apply IH | reflexivity].
Qed.

Lemma decode_points_valid (bigBase radix : Z) (chars : list N) :
  Forall (fun c => exists d, parseInt_point c radix = Some d) chars ->
  forall result,
    exists v, decode_points bigBase radix chars result = Normal v.
Proof.
  induction 1 as [| c chars (d & Hd) _ IH]; intros result;
    cbn [decode_points].
  - eexists. reflexivity.
  - rewrite Hd. cbn [BigInt_of_number bind]. apply IH.
Qed.

(** No character from U+0080 on is a digit. *)
Lemma high_char_no_digit (a : ascii) :
  (128 <= N_of_ascii a)%N -> digit_of_char a = None.
Proof.
  destruct a as [[] [] [] [] [] [] [] []]; vm_compute;
    intros H; try reflexivity; exfalso; apply H; reflexivity.
Qed.

Lemma high_point_no_digit (c : N) (radix : Z) :
  (128 <= c)%N -> parseInt_point c radix = None.
Proof.
  intros Hc. unfold parseInt_point.
  destruct (N.ltb_spec c 256) as [Hlt | _]; [| reflexivity].
  unfold parseInt_char.
  rewrite high_char_no_digit by (rewrite N_ascii_embedding; assumption).
  destruct (if ToInt32 radix =? 0 then Some 10
            else if (ToInt32 radix <? 2) || (36 <? ToInt32 radix)
                 then None else Some (ToInt32 radix)); reflexivity.
Qed.

Hypothesis table_known : table_ok table.

Variable base : Z.
Hypothesis base_range : 2 <= base <= 36.

(** The lower-case form of a character that does not fit the base has a
    character that [parseInt] reads as [NaN]. *)
Lemma unfit_lower (before : list N) (cp : N) (after : list N) :
  unfit base cp ->
  Exists (fun c => parseInt_point c (parseInt_number base) = None)
         (lower_point table before cp after).
Proof.
  unfold unfit, digit_value_point, lower_point.
  destruct (N.ltb_spec cp 256) as [Hlt | Hge]; intros Hbad.
  - apply Exists_cons_hd. rewrite parseInt_point_latin.
    apply parseInt_char_invalid; assumption.
  - revert Hbad. destruct (N.eqb_spec cp 304) as [-> | H304]; intros Hbad.
    + apply Exists_cons_tl, Exists_cons_hd. reflexivity.
    + revert Hbad.
      destruct (N.eqb_spec cp 8490) as [-> | H8490]; intros Hbad.
      * apply Exists_cons_hd.
        change 107%N with (N_of_ascii (toLowerCase_char "k")).
        rewrite parseInt_point_latin.
        apply parseInt_char_invalid; [assumption |].
        intros d Hd. vm_compute in Hd. injection Hd as <-.
        apply Hbad. reflexivity.
      * destruct (table_known before cp after Hge) as [Hne Hall].
        destruct (table before cp after) as [| c rest]; [contradiction |].
        apply Exists_cons_hd. apply high_point_no_digit.
        inversion Hall. assumption.
Qed.

Lemma unfit_lower_from (s : list N) :
  Exists (unfit base) s ->
  forall before,
    Exists (fun c => parseInt_point c (parseInt_number base) = None)
           (lower_from table before s).
Proof.
  induction 1 as [cp after Hbad | cp after _ IH]; intros before;
    cbn [lower_from]; apply Exists_app.
  - left. apply unfit_lower, Hbad.
  - right. apply IH.
Qed.

(** The lower-case form of a character that fits the base is one digit
    below the base. *)
Lemma fits_lower (before : list N) (cp : N) (after : list N) :
  fits base cp ->
  Forall (fun c => exists d, parseInt_point c (parseInt_number base) = Some d)
         (lower_point table before cp after).
Proof.
  unfold fits, digit_value_point, lower_point. intros (d & Hd & Hlt).
  revert Hd.
  destruct (N.ltb_spec cp 256) as [_ | _].
  - intros Hd. constructor; [| constructor]. exists d.
    rewrite parseInt_point_latin. apply parseInt_char_valid; assumption.
  - destruct (N.eqb_spec cp 304) as [-> | _]; [cbn; discriminate |].
    destruct (N.eqb_spec cp 8490) as [_ | _]; [| discriminate].
    intros Hd. injection Hd as <-.
    constructor; [| constructor]. exists 20.
    change 107%N with (N_of_ascii (toLowerCase_char "k")).
    rewrite parseInt_point_latin.
    apply parseInt_char_valid; [assumption | | exact Hlt].
    vm_compute. reflexivity.
Qed.

Lemma fits_lower_from (s : list N) :
  Forall (fits base) s ->
  forall before,
    Forall (fun c => exists d,
                parseInt_point c (parseInt_number base) = Some d)
           (lower_from table before s).
Proof.
  induction 1 as [| cp after Hfit _ IH]; intros before; cbn [lower_from].
  - constructor.
  - apply Forall_app. split; [apply fits_lower, Hfit | apply IH].
Qed.

Lemma fits_or_unfit (s : list N) :
  Forall (fits base) s \/ Exists (unfit base) s.
Proof.
  induction s as [| cp s [Hall | Hbad]].
  - left. constructor.
  - destruct (digit_value_point cp) as [d |] eqn:Hd.
    + destruct (Z.lt_ge_cases d base) as [Hlt | Hge].
      * left. constructor; [exists d; split; assumption | exact Hall].
      * right. apply Exists_cons_hd. intros d' Hd'.
        rewrite Hd in Hd'. injection Hd' as <-. exact Hge.
    + right. apply Exists_cons_hd. intros d' Hd'.
      rewrite Hd in Hd'. discriminate.
  - right. apply Exists_cons_tl. exact Hbad.
Qed.

End General.

(** C7, as the code has it.  For a base from 2 to 36 and every digit
    string, a character that is not alphanumeric, or whose digit value is
    not below the base, makes [decodeValue] throw the built-in
    [RangeError] of [BigInt(NaN)], and no value is returned; the Kelvin
    sign U+212A counts as the letter [k], of digit value 20, which is what
    [toLowerCase] makes of it. *)
Theorem decodeValue_unfit_digit_throws
    (table : list N -> N -> list N -> list N) (base : Z) (s : list N) :
  table_ok table ->
  2 <= base <= 36 ->
  Exists (unfit base) s ->
  decodeValue_general table (Integral base) s
  = Throw RangeError_NotAnInteger.
Proof.
  intros Htable Hbase Hbad. unfold decodeValue_general, toLowerCase_general.
  apply decode_points_invalid.
  apply unfit_lower_from; assumption.
Qed.

Lemma caseless_table_ok : table_ok caseless_table.
Proof.
  intros before cp after Hcp. unfold caseless_table. split.
  - discriminate.
  - constructor; [lia | constructor].
Qed.

Lemma decodeValue_unfit_digit_throws_witness :
  decodeValue_general caseless_table (Integral 10) (points_of "1a")
  = Throw RangeError_NotAnInteger.
Proof.
  apply (decodeValue_unfit_digit_throws caseless_table 10 (points_of "1a")).
  - intros before cp after Hcp. unfold caseless_table. split.
    + discriminate.
    + constructor; [lia | constructor].
  - lia.
  - apply Exists_cons_tl, Exists_cons_hd.
    intros d H. vm_compute in H. injection H as <-. lia.
Defined.

(** C7 as stated fails.  The digit [a] does not fit base 10, and the error
    thrown is a [RangeError], not one called [InvalidDigit].  The Kelvin
    sign U+212A is not alphanumeric, and in base 36 it is read as the
    digit 20 and a value is returned.  With base 0 the digit [5], which is
    not below the base, is accepted and a value is returned. *)
Lemma decodeValue_no_InvalidDigit :
  (invalid_digit 10 "a"%char /\
   decodeValue_general caseless_table (Integral 10) (points_of "a")
   = Throw RangeError_NotAnInteger /\
   ~ raises "InvalidDigit"
       (decodeValue_general caseless_table (Integral 10) (points_of "a"))) /\
  decodeValue_general caseless_table (Integral 36) [8490%N] = Normal 20 /\
  (invalid_digit 0 "5"%char /\
   decodeValue_general caseless_table (Integral 0) (points_of "5")
   = Normal 5).
Proof.
  repeat apply conj.
  - intros d H. vm_compute in H. injection H as <-. lia.
  - vm_compute. reflexivity.
  - intros (e & He & Hname). vm_compute in He. injection He as <-.
    vm_compute in Hname. discriminate.
  - vm_compute. reflexivity.
  - intros d H. vm_compute in H. injection H as <-. lia.
  - vm_compute. reflexivity.
Qed.

(** C10, as the code has it.  On the empty digit string [decodeValue]
    returns 0 and throws nothing for every base that is an integer: the
    loop body never runs.  For a base that is no integer, such as [NaN],
    [BigInt(base)] on line 19 throws its [RangeError] before the loop. *)
Theorem decodeValue_empty_string
    (table : list N -> N -> list N -> list N) (base : Number) :
  decodeValue_general table base []
  = match base with
    | NotIntegral => Throw RangeError_NotAnInteger
    | _ => Normal 0
    end.
Proof. destruct base; reflexivity. Qed.

(** C10 as stated fails: with the base [NaN] and the empty digit string an
    error is raised and 0 is not returned. *)
Lemma decodeValue_empty_NaN_base :
  decodeValue_general caseless_table NotIntegral (points_of "")
  = Throw RangeError_NotAnInteger /\
  decodeValue_general caseless_table NotIntegral (points_of "") <> Normal 0.
Proof.
  split; [reflexivity | discriminate].
Qed.

(** X3.  For a base from 2 to 36 and every digit string, [decodeValue]
    returns a value exactly when every character has a digit value below
    the base, the Kelvin sign U+212A counting as the letter [k]. *)
Theorem decodeValue_returns_iff
    (table : list N -> N -> list N -> list N) (base : Z) (s : list N) :
  table_ok table ->
  2 <= base <= 36 ->
  ((exists v, decodeValue_general table (Integral base) s = Normal v) <->
   Forall (fits base) s).
Proof.
  intros Htable Hbase. unfold decodeValue_general, toLowerCase_general.
  split.
  - intros (v & Hv).
    destruct (fits_or_unfit base s) as [Hall | Hbad]; [exact Hall |].
    rewrite (decode_points_invalid base (parseInt_number base)) in Hv.
    + discriminate.
    + apply unfit_lower_from; assumption.
  - intros Hall. apply decode_points_valid.
    apply fits_lower_from; assumption.
Qed.

Lemma decodeValue_returns_iff_witness :
  (exists v,
     decodeValue_general caseless_table (Integral 36) [49%N; 8490%N]
     = Normal v) <->
  Forall (fits 36) [49%N; 8490%N].
Proof.
  apply (decodeValue_returns_iff caseless_table 36 [49%N; 8490%N]).
  - intros before cp after Hcp. unfold caseless_table. split.
    + discriminate.
    + constructor; [lia | constructor].
  - lia.
Defined.
